(** * DescriptaStore: the indexed record-store facade of descriptastorus

    A shallow embedding of [descriptastorus/DescriptaStore.py]: the facade
    [DescriptaStore] over a columnar store ([raw.RawStore]), a primary
    ordinal index ([MolFileIndex]), two optional kyotocabinet key stores
    and an optional pickled options record, together with its sequential
    iterator [DescriptaStoreIter].

    Python objects are mutable and methods have effects (attribute
    assignment, printing, logging, closing handles), so every method is a
    function from the state of the world before the call to an outcome
    (a returned value or a raised exception) and the state after it. *)

From Stdlib Require Import ZArith Lia Ascii String Sorted.
From Stdlib Require Import DecimalString DecimalFacts DecimalZ DecimalPos.
From stdpp Require Import base option list gmap strings pretty.

Set Default Proof Using "Type".
Local Open Scope Z_scope.

(** ** Exceptions and outcomes *)

(** The exception classes the module raises itself or lets through.  The
    argument is the exception's argument ([KeyError(key)]) or message. *)
Inductive exn : Type :=
  | StopIteration
  | ValueError (msg : string)
  | IndexError (msg : string)
  | KeyError (key : string)
  | AttributeError (msg : string)
  | TypeError (msg : string)
  | SyntaxError (msg : string)
  | OtherError (cls msg : string).

Global Instance exn_eq_dec : EqDecision exn.
Proof. solve_decision. Defined.

Inductive outcome (A : Type) : Type :=
  | Returns (a : A)
  | Raises (e : exn).
Global Arguments Returns {A} a.
Global Arguments Raises {A} e.

Definition is_raise {A} (o : outcome A) : bool :=
  match o with Returns _ => false | Raises _ => true end.

(** Sequencing of computations that may raise (no state). *)
Definition obind {A B} (o : outcome A) (k : A → outcome B) : outcome B :=
  match o with
  | Returns a => k a
  | Raises e => Raises e
  end.

(** [[f(x) for x in l]] where [f] may raise: the first exception wins. *)
Fixpoint omap {A B} (f : A → outcome B) (l : list A) : outcome (list B) :=
  match l with
  | [] => Returns []
  | x :: l' => obind (f x) (λ y, obind (omap f l') (λ ys, Returns (y :: ys)))
  end.

(** ** Strings *)

(** [s.startswith(p)]. *)
Fixpoint startswith (p s : string) : bool :=
  match p, s with
  | EmptyString, _ => true
  | String a p', String b s' => bool_decide (a = b) && startswith p' s'
  | String _ _, EmptyString => false
  end.

(** The operator [sub in s] on strings: [sub] occurs in [s] at some
    offset. *)
Fixpoint py_in (sub s : string) : bool :=
  startswith sub s ||
  match s with
  | EmptyString => false
  | String _ s' => py_in sub s'
  end.

(** ** The column partition computed by [__init__] (lines 102-105) *)

Fixpoint enumerate_from {A} (k : nat) (l : list A) : list (nat * A) :=
  match l with
  | [] => []
  | x :: l' => (k, x) :: enumerate_from (S k) l'
  end.

(** [enumerate(l)]. *)
Definition enumerate {A} (l : list A) : list (nat * A) := enumerate_from 0 l.

(** The test of the comprehension: ["_calculated" not in name]. *)
Definition is_datacol (name : string) : bool :=
  negb (py_in "_calculated" name).

(** [[(i,name) for i,name in enumerate(colnames) if "_calculated" not in name]] *)
Definition datacols (colnames : list string) : list (nat * string) :=
  filter (λ p : nat * string, is_datacol p.2) (enumerate colnames).

Definition init_datanames (colnames : list string) : list string :=
  (datacols colnames).*2.

Definition init_dataindices (colnames : list string) : list nat :=
  (datacols colnames).*1.

(** ** Python values *)

(** The values that cross the facade apart from descriptor rows: results of
    [eval], option fields, the descriptor calculator.  [PyObject] stands
    for any object the model does not look into. *)
Inductive pyval : Type :=
  | PyNone
  | PyInt (z : Z)
  | PyStr (s : string)
  | PyList (l : list Z)
  | PyObject (descr : string).

Global Instance pyval_eq_dec : EqDecision pyval.
Proof. solve_decision. Defined.

(** [s.split(",")]. *)
Fixpoint split_comma (s : string) : list string :=
  match s with
  | EmptyString => [EmptyString]
  | String c s' =>
      if bool_decide (c = ","%char) then EmptyString :: split_comma s'
      else match split_comma s' with
           | w :: ws => String c w :: ws
           | [] => [String c EmptyString]
           end
  end.

(** *** Decimal integers *)

Definition is_digit (c : ascii) : bool :=
  match Ascii.is_nat c with Some _ => true | None => false end.

(** The longest prefix of decimal digits, and what follows it. *)
Fixpoint take_digits (s : string) : string * string :=
  match s with
  | EmptyString => (EmptyString, EmptyString)
  | String c s' =>
      if is_digit c
      then let '(ds, rest) := take_digits s' in (String c ds, rest)
      else (EmptyString, s)
  end.

(** A decimal numeral is canonical when it has no superfluous leading
    zero: the form [repr] prints, and the only form that means the same
    number in every version of the language (a leading zero is an octal
    literal or a syntax error). *)
Definition canonical (u : Decimal.uint) : bool :=
  match u with
  | Decimal.Nil => false
  | Decimal.D0 Decimal.Nil => true
  | Decimal.D0 _ => false
  | _ => true
  end.

Definition uint_of_digits (ds : string) : option Decimal.uint :=
  match ds with
  | EmptyString => None
  | _ => DecimalString.NilEmpty.uint_of_string ds
  end.

(** [repr(z)] for an integer. *)
Definition repr_int (z : Z) : string :=
  DecimalString.NilEmpty.string_of_int (Z.to_int z).

(** [repr(l)] for a list of integers: ["[3, 7, 9]"]. *)
Fixpoint repr_items (l : list Z) : string :=
  match l with
  | [] => "]"
  | z :: l' => ", " +:+ repr_int z +:+ repr_items l'
  end.

Definition repr_list (l : list Z) : string :=
  match l with
  | [] => "[]"
  | z :: l' => "[" +:+ repr_int z +:+ repr_items l'
  end.

(** *** The literal fragment of [eval]

    [eval(text)] evaluates any expression of the language.  The model
    evaluates itself the texts of this grammar (sp is a space, "many"
    means zero or more),
<<
      text    ::= many sp, int or list, many sp
      int     ::= optional "-", decimal
      decimal ::= "0", or a digit 1-9 followed by many digits
      list    ::= "[", many sp, "]"
               |  "[", item, many ("," item), "]"
      item    ::= many sp, int, many sp
>>
    which contains what [repr] prints for an integer and for a list of
    integers, and leaves every other text to the run-time environment
    ([eval_code] below). *)

Fixpoint skip_spaces (s : string) : string :=
  match s with
  | String " " s' => skip_spaces s'
  | _ => s
  end.

Definition all_spaces (s : string) : bool :=
  bool_decide (skip_spaces s = EmptyString).

Definition parse_unsigned (s : string) : option (Z * string) :=
  let '(ds, rest) := take_digits s in
  match uint_of_digits ds with
  | Some u => if canonical u then Some (Z.of_uint u, rest) else None
  | None => None
  end.

Definition parse_int (s : string) : option (Z * string) :=
  match s with
  | String "-" s' =>
      match parse_unsigned s' with
      | Some (z, rest) => Some (- z, rest)
      | None => None
      end
  | _ => parse_unsigned s
  end.

(** After an item of a list display: ["," item] again, or the closing
    bracket.  [acc] holds the items read so far, last first. *)
Fixpoint parse_items (fuel : nat) (s : string) (acc : list Z)
  : option (list Z * string) :=
  match fuel with
  | O => None
  | S fuel' =>
      match skip_spaces s with
      | String "]" tail => Some (rev acc, tail)
      | String "," s' =>
          match parse_int (skip_spaces s') with
          | Some (z, rest) => parse_items fuel' rest (z :: acc)
          | None => None
          end
      | _ => None
      end
  end.

Definition parse_list_body (s : string) : option (list Z * string) :=
  match skip_spaces s with
  | String "]" tail => Some ([], tail)
  | s1 =>
      match parse_int s1 with
      | Some (z, rest) => parse_items (S (String.length rest)) rest [z]
      | None => None
      end
  end.

Definition literal_eval (s : string) : option pyval :=
  match skip_spaces s with
  | String "[" body =>
      match parse_list_body body with
      | Some (l, tail) => if all_spaces tail then Some (PyList l) else None
      | None => None
      end
  | s1 =>
      match parse_int s1 with
      | Some (z, tail) => if all_spaces tail then Some (PyInt z) else None
      | None => None
      end
  end.

(** *** [int(text)] *)

Fixpoint lstrip (s : string) : string :=
  match s with
  | String c s' => if Ascii.is_space c then lstrip s' else s
  | EmptyString => EmptyString
  end.

Definition strip (s : string) : string :=
  String.rev (lstrip (String.rev (lstrip s))).

Definition all_digits (s : string) : bool :=
  bool_decide ((take_digits s).2 = EmptyString).

Definition digits_value (ds : string) : option Z :=
  if all_digits ds then Z.of_uint <$> uint_of_digits ds else None.

(** [int(s)] for a string: optional surrounding white space, an optional
    sign, decimal digits; anything else is a [ValueError]. *)
Definition py_int (s : string) : outcome Z :=
  let t := strip s in
  let r := match t with
           | String "-" ds => Z.opp <$> digits_value ds
           | String "+" ds => digits_value ds
           | _ => digits_value t
           end in
  match r with
  | Some z => Returns z
  | None => Raises (ValueError "invalid literal for int() with base 10")
  end.

(** *** [repr(s)] of a byte string, as [%r] formats it *)

Definition dquote : ascii := "034"%char.
Definition squote : ascii := "039"%char.
Definition backslash : ascii := "092"%char.

Fixpoint has_char (c : ascii) (s : string) : bool :=
  match s with
  | EmptyString => false
  | String a s' => bool_decide (a = c) || has_char c s'
  end.

Definition hex_digit (n : N) : ascii :=
  match n with
  | 10 => "a" | 11 => "b" | 12 => "c" | 13 => "d" | 14 => "e" | 15 => "f"
  | _ => ascii_of_N (48 + n)
  end%N%char.

Definition repr_char (quote c : ascii) : string :=
  if bool_decide (c = quote) || bool_decide (c = backslash)
  then String backslash (String c EmptyString)
  else if bool_decide (c = "009"%char) then String backslash "t"
  else if bool_decide (c = "010"%char) then String backslash "n"
  else if bool_decide (c = "013"%char) then String backslash "r"
  else let n := N_of_ascii c in
       if ((n <? 32) || (127 <=? n))%N
       then String backslash
              (String "x" (String (hex_digit (n / 16)) (String (hex_digit (n mod 16)) EmptyString)))
       else String c EmptyString.

Fixpoint repr_chars (quote : ascii) (s : string) : string :=
  match s with
  | EmptyString => EmptyString
  | String c s' => repr_char quote c +:+ repr_chars quote s'
  end.

Definition repr_str (s : string) : string :=
  let quote := if has_char squote s && negb (has_char dquote s)
               then dquote else squote in
  String quote (repr_chars quote s +:+ String quote EmptyString).

(** ["Name %r not found" % name] *)
Definition name_not_found (nm : string) : string :=
  "Name " +:+ repr_str nm +:+ " not found".

(** [os.path.join(a, b)] for a relative [b]. *)
Definition path_join (a b : string) : string :=
  match String.rev a with
  | EmptyString => b
  | String "/" _ => a +:+ b
  | _ => a +:+ "/" +:+ b
  end.

(** ** The collaborators *)

(** Modelled from the spec: the access modes of [raw.Mode], which is not
    part of this file's source ("an access mode (read-only or
    read-write)"). *)
Inductive Mode : Type := READONLY | READWRITE.

Global Instance Mode_eq_dec : EqDecision Mode.
Proof. solve_decision. Defined.

(** The columnar store [raw.RawStore]: the attributes and methods the
    facade uses.  [V] is the type of the scalars of a row.  [close n] is
    the outcome of the store's [close()] when it has returned [n] times
    before. *)
Module raw.
Record RawStore (V : Type) : Type := {
  N : nat;
  colnames : list string;
  get : Z → outcome (list V);
  getDict : Z → outcome (list (string * V));
  close : nat → outcome ();
}.
Global Arguments N {V} _.
Global Arguments colnames {V} _.
Global Arguments get {V} _ _.
Global Arguments getDict {V} _ _.
Global Arguments close {V} _ _.
End raw.

(** The primary ordinal index [MolFileIndex.MolFileIndex].  A record of
    the index is a sequence of fields; [(moldata, name)] when names were
    recorded.  [iter] is what iterating the index yields: the records in
    order, and the exception that ends the iteration if it does not end
    normally; [close n] is the outcome of its [close()] when it has
    returned [n] times before. *)
Module MolFileIndex.
Record MolFileIndex : Type := {
  get : Z → outcome (list string);
  iter : list (list string) * option exn;
  close : nat → outcome ();
}.
End MolFileIndex.

(** A kyotocabinet database, opened with [OREADER] or [OWRITER]. *)
Inductive kc_flag : Type := OREADER | OWRITER.

Record KCDB : Type := {
  kc_flag_of : kc_flag;
  kc_data : gmap string string;
}.

(** What [__init__] finds at the store location. *)
Record StoreDir (V : Type) : Type := {
  dbdir : string;
  open_raw : Mode → outcome (raw.RawStore V);
  open_molindex : outcome MolFileIndex.MolFileIndex;
  inchikey_kch : option (gmap string string);
  name_kch : option (gmap string string);
  options_file : option (outcome (gmap string pyval));
}.
Global Arguments dbdir {V} _.
Global Arguments open_raw {V} _ _.
Global Arguments open_molindex {V} _.
Global Arguments inchikey_kch {V} _.
Global Arguments name_kch {V} _.
Global Arguments options_file {V} _.

(** ** The facade object *)

(** An attribute of an instance: never assigned, or assigned a value. *)
Inductive attr (A : Type) : Type :=
  | Unset
  | Assigned (a : A).
Global Arguments Unset {A}.
Global Arguments Assigned {A} a.

(** [self.name]: a kyotocabinet handle, or the dictionary that the
    fallback of [lookupName] puts in its place. *)
Inductive name_index : Type :=
  | NameDB (kc : KCDB)
  | NameDict (d : gmap string Z).

(** The attributes of a [DescriptaStore] instance; [None] is [None].
    [__init__] assigns all of them on every path but [inchikey]. *)
Record DescriptaStore (V : Type) : Type := {
  desctiporDB : string;
  db : raw.RawStore V;
  index : MolFileIndex.MolFileIndex;
  inchikey : attr (option KCDB);
  name : option name_index;
  options : option (gmap string pyval);
  datanames : list string;
  dataindices : list nat;
}.
Global Arguments desctiporDB {V} _.
Global Arguments db {V} _.
Global Arguments index {V} _.
Global Arguments inchikey {V} _.
Global Arguments name {V} _.
Global Arguments options {V} _.
Global Arguments datanames {V} _.
Global Arguments dataindices {V} _.

(** ** Effects *)

Inductive handle : Type :=
  | ColumnarStore | OrdinalIndex | InchiKeyStore | NameStore.

Global Instance handle_eq_dec : EqDecision handle.
Proof. solve_decision. Defined.

(** What a call does to the outside, in order: lines printed, records
    logged, handles closed, and each start of a sequential scan of the
    primary ordinal index. *)
Inductive event : Type :=
  | Stdout (line : string)
  | Stderr (line : string)
  | LogWarning (msg : string)
  | LogException (msg : string)
  | Closed (h : handle)
  | IndexScan.

Global Instance event_eq_dec : EqDecision event.
Proof. solve_decision. Defined.

Record World (V : Type) : Type := {
  self : DescriptaStore V;
  trace : list event;
}.
Global Arguments self {V} _.
Global Arguments trace {V} _.

(** A method: from the world before the call to its outcome and the world
    after it. *)
Definition M (V A : Type) : Type := World V → outcome A * World V.

Global Instance M_ret {V} : MRet (M V) := λ A a w, (Returns a, w).

Global Instance M_bind {V} : MBind (M V) := λ A B k c w,
  match c w with
  | (Returns a, w') => k a w'
  | (Raises e, w') => (Raises e, w')
  end.

Definition raise {V A} (e : exn) : M V A := λ w, (Raises e, w).

Definition lift {V A} (o : outcome A) : M V A := λ w, (o, w).

Definition emit {V} (e : event) : M V () := λ w,
  (Returns (), {| self := self w; trace := trace w ++ [e] |}).

Definition get_self {V} : M V (DescriptaStore V) := λ w, (Returns (self w), w).

Definition get_trace {V} : M V (list event) := λ w, (Returns (trace w), w).

(** [self.name = n] *)
Definition set_name {V} (n : option name_index) : M V () := λ w,
  let st := self w in
  (Returns (),
   {| self := {| desctiporDB := desctiporDB st; db := db st; index := index st;
                 inchikey := inchikey st; name := n; options := options st;
                 datanames := datanames st; dataindices := dataindices st |};
      trace := trace w |}).

(** [try: body / except: handler]: a bare [except] catches everything;
    the handler runs in the world the body left. *)
Definition try_except {V A} (body : M V A) (handler : exn → M V A) : M V A :=
  λ w, match body w with
       | (Returns a, w') => (Returns a, w')
       | (Raises e, w') => handler e w'
       end.

(** Reading an attribute that was never assigned raises. *)
Definition read_attr {V A} (attr_name : string) (a : attr A) : M V A :=
  match a with
  | Assigned v => mret v
  | Unset =>
      raise (AttributeError
               ("'DescriptaStore' object has no attribute '" +:+ attr_name +:+ "'"))
  end.

(** ** The run-time environment *)

(** The module-level names that depend on what is installed: the
    [kyotocabinet] import, [MakeGenerator] ([None] when the import of the descriptor engine
    failed), and the evaluator behind [eval] for the texts outside the
    literal fragment.  [eval(strres)] at line 194 runs in the scope of
    [lookupInchiKey], where [self] and [key] are bound: the evaluator
    gets the text and the key, and it can print, assign attributes of
    the facade and raise, so it is a computation on the world. *)
Record Runtime : Type := {
  kyotocabinet : bool;
  MakeGenerator : option (list string → outcome pyval);
  eval_code : ∀ V : Type, string → string → World V → outcome pyval * World V;
}.

(** [eval(text)] where [key] is bound: a literal evaluates to its value
    and has no effect. *)
Definition py_eval {V} (rt : Runtime) (text key : string) : M V pyval :=
  match literal_eval text with
  | Some v => mret v
  | None => eval_code rt V text key
  end.

(** ** [DescriptaStore.__init__] *)

(** [kyotocabinet.DB()] followed by [open(path, flag)]. *)
Definition kc_open (data : gmap string string) (mode : Mode) : KCDB :=
  {| kc_flag_of := if decide (mode = READONLY) then OREADER else OWRITER;
     kc_data := data |}.

(** Lines 66-79.  When the file exists and kyotocabinet is missing, the
    branch prints and assigns nothing. *)
Definition init_inchikey (rt : Runtime) (found : option (gmap string string))
    (mode : Mode) : attr (option KCDB) * list event :=
  match found with
  | Some data =>
      if kyotocabinet rt
      then (Assigned (Some (kc_open data mode)), [])
      else (Unset, [Stderr "Inchi lookup exists, but kyotocabinet is not installed."])
  | None => (Assigned None, [])
  end.

(** Lines 81-94. *)
Definition init_name (rt : Runtime) (dir : string)
    (found : option (gmap string string)) (mode : Mode)
  : option name_index * list event :=
  match found with
  | Some data =>
      if kyotocabinet rt
      then (Some (NameDB (kc_open data mode)), [])
      else (None, [LogWarning "Name lookup exists, but kyotocabinet is not installed."])
  | None =>
      (None, [Stderr ("Couldn't open name db " +:+ path_join dir "name.kch")])
  end.

(** The constructor: the new instance, or the exception that aborts the
    construction, and what was printed and logged on the way. *)
Definition __init__ {V} (rt : Runtime) (dir : StoreDir V) (mode : Mode)
  : outcome (DescriptaStore V) * list event :=
  match open_raw dir mode with
  | Raises e => (Raises e, [])
  | Returns rdb =>
      match open_molindex dir with
      | Raises e => (Raises e, [])
      | Returns ix =>
          let '(ik, ev1) := init_inchikey rt (inchikey_kch dir) mode in
          let '(nm, ev2) := init_name rt (dbdir dir) (name_kch dir) mode in
          let build opts :=
            {| desctiporDB := dbdir dir; db := rdb; index := ix;
               inchikey := ik; name := nm; options := opts;
               datanames := init_datanames (raw.colnames rdb);
               dataindices := init_dataindices (raw.colnames rdb) |} in
          match options_file dir with
          | None => (Returns (build None), ev1 ++ ev2)
          | Some (Returns opts) => (Returns (build (Some opts)), ev1 ++ ev2)
          | Some (Raises e) => (Raises e, ev1 ++ ev2)
          end
      end
  end.

(** ** The methods *)

(** How often [close()] has returned on handle [h]. *)
Definition times_closed (h : handle) (t : list event) : nat :=
  length (filter (λ e, e = Closed h) t).

(** One [close()] call on a collaborator: when it returns the handle is
    closed, when it raises the exception goes through. *)
Definition close_handle {V} (h : handle) (closes : nat → outcome ()) : M V () :=
  t ← get_trace;
  lift (closes (times_closed h t));;
  emit (Closed h).

(** [close()] of a kyotocabinet database: [kyotocabinet.DB()] is built
    without the option [GEXCEPTIONAL], so a failure is reported by the
    returned value, which [close] below ignores, and nothing is
    raised. *)
Definition kc_close (n : nat) : outcome () := Returns ().

Definition close {V} : M V () :=
  st ← get_self;
  close_handle ColumnarStore (raw.close (db st));;
  close_handle OrdinalIndex (MolFileIndex.close (index st));;
  ik ← read_attr "inchikey" (inchikey st);
  match ik with
  | Some _ => close_handle InchiKeyStore kc_close
  | None => mret ()
  end;;
  match name st with
  | None => mret ()
  | Some (NameDB _) => close_handle NameStore kc_close
  | Some (NameDict _) =>
      raise (AttributeError "'dict' object has no attribute 'close'")
  end.

Definition __len__ {V} : M V nat :=
  st ← get_self; mret (raw.N (db st)).

Definition getDescriptorCalculator {V} (rt : Runtime) : M V pyval :=
  try_except
    (st ← get_self;
     opts ← lift (match options st with
                  | Some d => Returns d
                  | None => Raises (TypeError "'NoneType' object is not subscriptable")
                  end);
     v ← lift (match opts !! "descriptors" with
               | Some v => Returns v
               | None => Raises (KeyError "descriptors")
               end);
     names ← lift (match v with
                   | PyStr s => Returns (split_comma s)
                   | _ => Raises (AttributeError "object has no attribute 'split'")
                   end);
     match MakeGenerator rt with
     | Some make => lift (make names)
     | None => raise (TypeError "'NoneType' object is not callable")
     end)
    (λ _, emit (LogException "Unable to make generator from store");;
          mret PyNone).

Definition getDescriptorNames {V} (keepCalculatedFlags : bool)
  : M V (list string) :=
  st ← get_self;
  if keepCalculatedFlags then mret (raw.colnames (db st))
  else mret (datanames st).

(** [v[i]] for [0 <= i]. *)
Definition subscript {A} (v : list A) (i : nat) : outcome A :=
  match v !! i with
  | Some x => Returns x
  | None => Raises (IndexError "list index out of range")
  end.

Definition getDescriptors {V} (i : Z) (keepCalculatedFlags : bool)
  : M V (list V) :=
  st ← get_self;
  v ← lift (raw.get (db st) i);
  if keepCalculatedFlags then mret v
  else lift (omap (subscript v) (dataindices st)).

Definition getDescriptorsAsDict {V} (i : Z) : M V (list (string * V)) :=
  st ← get_self; lift (raw.getDict (db st) i).

Definition descriptors {V} : M V (raw.RawStore V) :=
  st ← get_self; mret (db st).

Definition molIndex {V} : M V MolFileIndex.MolFileIndex :=
  st ← get_self; mret (index st).

(** *** [lookupName] *)

(** [(moldata, name) = record] *)
Definition unpack2 (r : list string) : outcome (string * string) :=
  match r with
  | [moldata; nm] => Returns (moldata, nm)
  | _ => Raises (ValueError "wrong number of values to unpack")
  end.

(** The dictionary comprehension over [enumerate(records)], from ordinal
    [i] on: a later record of the same name replaces the earlier one. *)
Fixpoint build_names (i : Z) (records : list (list string))
    (d : gmap string Z) : outcome (gmap string Z) :=
  match records with
  | [] => Returns d
  | r :: records' =>
      obind (unpack2 r) (λ '(_, nm), build_names (i + 1) records' (<[nm := i]> d))
  end.

(** [{name: i for i, (moldata, name) in enumerate(self.index)}] *)
Definition scan_names (ix : MolFileIndex.MolFileIndex) : outcome (gmap string Z) :=
  obind (build_names 0 (MolFileIndex.iter ix).1 ∅)
        (λ d, match (MolFileIndex.iter ix).2 with
              | None => Returns d
              | Some e => Raises e
              end).

(** [int(self.name[name])] *)
Definition name_row (n : option name_index) (nm : string) : outcome Z :=
  match n with
  | Some (NameDB kc) =>
      match kc_data kc !! nm with
      | Some text => py_int text
      | None => Raises (TypeError "int() argument must be a string or a number, not 'NoneType'")
      end
  | Some (NameDict d) =>
      match d !! nm with
      | Some i => Returns i
      | None => Raises (KeyError nm)
      end
  | None => Raises (TypeError "'NoneType' object is not subscriptable")
  end.

Definition lookupName {V} (nm : string) : M V Z :=
  st ← get_self;
  match name st with
  | None =>
      try_except
        (emit (LogWarning "Using slower memory intensive option");;
         emit (LogWarning "Loading names...");;
         emit IndexScan;;
         d ← lift (scan_names (index st));
         set_name (Some (NameDict d));;
         emit (LogWarning "...done loading"))
        (λ _, emit (LogException "Names not available from original input");;
              raise (ValueError "Name index not available"))
  | Some _ => mret ()
  end;;
  try_except
    (st' ← get_self; lift (name_row (name st') nm))
    (λ _, emit (LogException "whups");;
          raise (IndexError (name_not_found nm))).

(** *** [lookupInchiKey] *)

Definition lookupInchiKey {V} (rt : Runtime) (key : string) : M V pyval :=
  st ← get_self;
  ik ← read_attr "inchikey" (inchikey st);
  match ik with
  | None => raise (ValueError "Inchi index not available")
  | Some kc =>
      match kc_data kc !! key with
      | None => raise (KeyError key)
      | Some strres => py_eval rt strres key
      end
  end.

(** ** [DescriptaStoreIter] *)

(** The iterator's own attribute; its [store] is the facade of the
    world. *)
Record DescriptaStoreIter : Type := { it_i : Z }.

(** [DescriptaStore.__iter__]: a new iterator, [i = -1]. *)
Definition __iter__ : DescriptaStoreIter := {| it_i := -1 |}.

Definition failed_at (i : Z) : string :=
  "== DescriptaStoreIter Failed at index " +:+ repr_int i.

(** [next]: the outcome, the iterator after the call and the world after
    the call.  [self.i] is advanced before anything can raise. *)
Definition next {V} (it : DescriptaStoreIter) (w : World V)
  : outcome (list string * list V) * DescriptaStoreIter * World V :=
  let i := it_i it + 1 in
  let it' := {| it_i := i |} in
  let body : M V (list string * list V) :=
    n ← __len__;
    if decide (i = Z.of_nat n) then raise StopIteration
    else
      try_except
        (st ← get_self;
         r ← lift (MolFileIndex.get (index st) i);
         d ← getDescriptors i false;
         mret (r, d))
        (λ e, emit (Stdout (failed_at i));; raise e) in
  let '(o, w') := body w in (o, it', w').

(** How a [for] statement over the store ends. *)
Inductive loop_end : Type :=
  | Exhausted
  | Propagated (e : exn).

(** [for pair in store: ...] with a body that only collects the pairs:
    [next] is called until it raises; [StopIteration] ends the loop, any
    other exception leaves it.  [None] when [fuel] calls were not
    enough. *)
Fixpoint for_loop {V} (fuel : nat) (it : DescriptaStoreIter) (w : World V)
    (acc : list (list string * list V))
  : option (list (list string * list V) * loop_end * World V) :=
  match fuel with
  | O => None
  | S fuel' =>
      match next it w with
      | (Returns p, it', w') => for_loop fuel' it' w' (acc ++ [p])
      | (Raises StopIteration, _, w') => Some (acc, Exhausted, w')
      | (Raises e, _, w') => Some (acc, Propagated e, w')
      end
  end.

Definition iterate {V} (fuel : nat) (w : World V) :=
  for_loop fuel __iter__ w [].

(** ** Calls on an open facade *)

(** The public operations, as a caller can issue them one after the
    other on the same facade. *)
Inductive call : Type :=
  | Call_close
  | Call_len
  | Call_next (it : DescriptaStoreIter)
  | Call_getDescriptorCalculator
  | Call_getDescriptorNames (keepCalculatedFlags : bool)
  | Call_getDescriptors (i : Z) (keepCalculatedFlags : bool)
  | Call_getDescriptorsAsDict (i : Z)
  | Call_descriptors
  | Call_molIndex
  | Call_lookupName (nm : string)
  | Call_lookupInchiKey (key : string).

(** The world a call leaves, whatever its outcome. *)
Definition run_call {V} (rt : Runtime) (c : call) (w : World V) : World V :=
  match c with
  | Call_close => (close w).2
  | Call_len => (__len__ w).2
  | Call_next it => (next it w).2
  | Call_getDescriptorCalculator => (getDescriptorCalculator rt w).2
  | Call_getDescriptorNames keep => (getDescriptorNames keep w).2
  | Call_getDescriptors i keep => (getDescriptors i keep w).2
  | Call_getDescriptorsAsDict i => (getDescriptorsAsDict i w).2
  | Call_descriptors => (descriptors w).2
  | Call_molIndex => (molIndex w).2
  | Call_lookupName nm => (lookupName nm w).2
  | Call_lookupInchiKey key => (lookupInchiKey rt key w).2
  end.

Definition run_calls {V} (rt : Runtime) (cs : list call) (w : World V) : World V :=
  foldl (λ w c, run_call rt c w) w cs.

(** The world right after a successful [DescriptaStore(dbdir, mode)]. *)
Definition world_after_open {V} (rt : Runtime) (dir : StoreDir V) (mode : Mode)
  : option (World V) :=
  match __init__ rt dir mode with
  | (Returns st, ev) => Some {| self := st; trace := ev |}
  | (Raises _, _) => None
  end.

(** A call that runs no stored code on a facade in state [st]: any call
    but a [lookupInchiKey] whose key is stored with a text outside the
    literal fragment, which [eval] would execute. *)
Definition code_free {V} (st : DescriptaStore V) (c : call) : Prop :=
  match c with
  | Call_lookupInchiKey key =>
      ∀ kc text, inchikey st = Assigned (Some kc) →
                 kc_data kc !! key = Some text → is_Some (literal_eval text)
  | _ => True
  end.


(** How many sequential scans of the primary ordinal index were started. *)
Definition scans {V} (w : World V) : nat :=
  length (filter (λ e, e = IndexScan) (trace w)).

(** The handles closed so far, in order. *)
Definition closed_handles {V} (w : World V) : list handle :=
  trace w ≫= λ e, match e with Closed h => [h] | _ => [] end.


(** What [next] fetches at ordinal [i]: the record of the index and the
    descriptors without the flags. *)
Definition fetch {V} (w : World V) (i : Z) : outcome (list string * list V) :=
  obind (MolFileIndex.get (index (self w)) i)
        (λ r, obind (getDescriptors i false w).1 (λ d, Returns (r, d))).

(** ** What the properties are stated with *)

(** Two states of the facade that differ at most in [self.name]. *)
Definition same_but_name {V} (st st' : DescriptaStore V) : Prop :=
  desctiporDB st' = desctiporDB st ∧ db st' = db st ∧ index st' = index st ∧
  inchikey st' = inchikey st ∧ options st' = options st ∧
  datanames st' = datanames st ∧ dataindices st' = dataindices st.


(** The world after [next] has printed that the fetch at [i] failed. *)
Definition printed_failure {V} (w : World V) (i : Z) : World V :=
  {| self := self w; trace := trace w ++ [Stdout (failed_at i)] |}.

(** A text that does not go on with a digit. *)
Definition no_digit_ahead (s : string) : Prop :=
  match s with
  | EmptyString => True
  | String c _ => is_digit c = false
  end.

(** What a decimal numeral starts with. *)
Definition digit_ahead (s : string) : Prop :=
  match s with
  | EmptyString => False
  | String c _ => is_digit c = true
  end.


(** ** Example stores *)

(** The scenario of the specification: two rows, the data columns
    ["MW"] and ["LogP"], the flag column ["MW_calculated"], records named
    ["A"] and ["B"], a content-key store and no name store.  Scalars are
    integers here. *)
Module Scenario.
Definition rows : list (list Z) := [[123; 11; 1]; [456; 22; 0]].

Definition get_row {A} (l : list A) (i : Z) : outcome A :=
  if decide (0 ≤ i) then subscript l (Z.to_nat i)
  else Raises (IndexError "index out of range").

Definition store : raw.RawStore Z :=
  {| raw.N := 2;
     raw.colnames := ["MW"; "LogP"; "MW_calculated"];
     raw.get := get_row rows;
     raw.getDict := λ i, obind (get_row rows i)
                           (λ r, Returns (zip ["MW"; "LogP"; "MW_calculated"] r));
     raw.close := λ _, Returns () |}.

Definition records : list (list string) := [["CC"; "A"]; ["CCO"; "B"]].

Definition molindex : MolFileIndex.MolFileIndex :=
  {| MolFileIndex.get := get_row records;
     MolFileIndex.iter := (records, None);
     MolFileIndex.close := λ _, Returns () |}.

Definition runtime : Runtime :=
  {| kyotocabinet := true;
     MakeGenerator := None;
     eval_code := λ V _ _ w, (Raises (SyntaxError "invalid syntax"), w) |}.

Definition dir : StoreDir Z :=
  {| dbdir := "store";
     open_raw := λ _, Returns store;
     open_molindex := Returns molindex;
     inchikey_kch := Some {[ "KEY-A" := "[3, 7, 9]"; "KEY-B" := "7" ]};
     name_kch := None;
     options_file := None |}.

(** The world after [DescriptaStore("store")]; the open succeeds, the
    default is never used. *)
Definition world : World Z :=
  default {| self := {| desctiporDB := ""; db := store; index := molindex;
                        inchikey := Unset; name := None; options := None;
                        datanames := []; dataindices := [] |};
             trace := [] |}
          (world_after_open runtime dir READONLY).
End Scenario.

Module CorruptName.
(** A name store whose value for ["ZWIMER-03065"] is no integer. *)
Definition names : KCDB :=
  {| kc_flag_of := OREADER;
     kc_data := {[ "ZWIMER-03065" := "twelve"; "ZWIMER-03066" := "1" ]} |}.

Definition world : World Z :=
  {| self := {| desctiporDB := "store"; db := Scenario.store;
                index := Scenario.molindex; inchikey := Assigned None;
                name := Some (NameDB names); options := None;
                datanames := ["MW"; "LogP"]; dataindices := [0; 1]%nat |};
     trace := [] |}.
End CorruptName.

Module Unnamed.
(** An index built from input without a name column: a record is the
    molecule alone, and [(moldata, name) = record] fails. *)
Definition records : list (list string) := [["CC"]; ["CCO"]].

Definition molindex : MolFileIndex.MolFileIndex :=
  {| MolFileIndex.get := Scenario.get_row records;
     MolFileIndex.iter := (records, None);
     MolFileIndex.close := λ _, Returns () |}.

Definition dir : StoreDir Z :=
  {| dbdir := "store";
     open_raw := λ _, Returns Scenario.store;
     open_molindex := Returns molindex;
     inchikey_kch := None;
     name_kch := None;
     options_file := None |}.

Definition world : World Z :=
  default Scenario.world (world_after_open Scenario.runtime dir READONLY).
End Unnamed.

Module Failing.
(** A store of three rows whose second and third rows cannot be
    read: both reads fail with the same error. *)
Definition read_failed : exn := OtherError "IOError" "read failed".

Definition store : raw.RawStore Z :=
  {| raw.N := 3;
     raw.colnames := ["MW"; "LogP"; "MW_calculated"];
     raw.get := λ i, if decide (i = 0) then Returns [123; 11; 1]
                     else Raises read_failed;
     raw.getDict := λ _, Raises read_failed;
     raw.close := λ _, Returns () |}.

Definition molindex : MolFileIndex.MolFileIndex :=
  {| MolFileIndex.get := λ i, Returns ["CC"; "A"];
     MolFileIndex.iter := ([["CC"; "A"]; ["CC"; "A"]; ["CC"; "A"]], None);
     MolFileIndex.close := λ _, Returns () |}.

Definition dir : StoreDir Z :=
  {| dbdir := "store";
     open_raw := λ _, Returns store;
     open_molindex := Returns molindex;
     inchikey_kch := None;
     name_kch := None;
     options_file := None |}.

Definition world : World Z :=
  default Scenario.world (world_after_open Scenario.runtime dir READONLY).
End Failing.

Module NoCabinet.
(** The scenario's store on a machine without kyotocabinet: the file
    [inchikey.kch] is there, the module that reads it is not. *)
Definition runtime : Runtime :=
  {| kyotocabinet := false;
     MakeGenerator := None;
     eval_code := λ V _ _ w, (Raises (SyntaxError "invalid syntax"), w) |}.

Definition world : World Z :=
  default Scenario.world (world_after_open runtime Scenario.dir READONLY).
End NoCabinet.

Definition no_inchikey_attribute : exn :=
  AttributeError "'DescriptaStore' object has no attribute 'inchikey'".

(** ** More to state properties with *)

(** How the loop ends when the fetch at ordinal [i] raises [e]. *)
Definition loop_end_of (e : exn) : loop_end :=
  match e with
  | StopIteration => Exhausted
  | _ => Propagated e
  end.

(** The handles [close] closes on a facade, in order. *)
Definition handles_to_close {V} (st : DescriptaStore V) : list handle :=
  [ColumnarStore; OrdinalIndex]
  ++ match inchikey st with Assigned (Some _) => [InchiKeyStore] | _ => [] end
  ++ match name st with Some _ => [NameStore] | None => [] end.

(** [",".join(l)]. *)
Fixpoint join_comma (l : list string) : string :=
  match l with
  | [] => EmptyString
  | [x] => x
  | x :: l' => x +:+ String "," (join_comma l')
  end.

(** No character of the text is white space. *)
Fixpoint no_space (s : string) : Prop :=
  match s with
  | EmptyString => True
  | String c s' => Ascii.is_space c = false ∧ no_space s'
  end.

(** The value of a hexadecimal digit. *)
Definition unhex (c : ascii) : N :=
  let n := N_of_ascii c in
  (if n <? 58 then n - 48 else n - 87)%N.

(** Reading a [repr] back: the characters up to the closing quote, with
    the escapes undone. *)
Fixpoint unrepr_chars (quote : ascii) (s : string) : string :=
  match s with
  | EmptyString => EmptyString
  | String c rest =>
      if bool_decide (c = quote) then EmptyString
      else if bool_decide (c = backslash) then
        match rest with
        | EmptyString => EmptyString
        | String k rest' =>
            if bool_decide (k = "t"%char)
            then String "009" (unrepr_chars quote rest')
            else if bool_decide (k = "n"%char)
            then String "010" (unrepr_chars quote rest')
            else if bool_decide (k = "r"%char)
            then String "013" (unrepr_chars quote rest')
            else if bool_decide (k = "x"%char)
            then match rest' with
                 | String h1 (String h2 rest'') =>
                     String (ascii_of_N (unhex h1 * 16 + unhex h2))
                            (unrepr_chars quote rest'')
                 | _ => EmptyString
                 end
            else String k (unrepr_chars quote rest')
        end
      else String c (unrepr_chars quote rest)
  end.

(** The key that a message ["Name %r not found"] names. *)
Definition key_of_message (msg : string) : string :=
  match msg with
  | String _ (String _ (String _ (String _ (String _ (String q body))))) =>
      unrepr_chars q body
  | _ => EmptyString
  end.

(** How many sequential scans of the index a call starts on a facade in
    state [st]. *)
Definition scans_started {V} (st : DescriptaStore V) (c : call) : nat :=
  match c, name st with
  | Call_lookupName _, None => 1
  | _, _ => 0
  end.

(** ** More example stores *)

Module Repeated.
(** An index in which the name ["A"] is carried by the records 0 and 2. *)
Definition records : list (list string) :=
  [["CC"; "A"]; ["CCO"; "B"]; ["CCC"; "A"]].

Definition molindex : MolFileIndex.MolFileIndex :=
  {| MolFileIndex.get := Scenario.get_row records;
     MolFileIndex.iter := (records, None);
     MolFileIndex.close := λ _, Returns () |}.

Definition world : World Z :=
  {| self := {| desctiporDB := "store"; db := Failing.store;
                index := molindex; inchikey := Assigned None;
                name := None; options := None;
                datanames := ["MW"; "LogP"]; dataindices := [0; 1]%nat |};
     trace := [] |}.
End Repeated.

Module NamedStore.
(** A name store written with [str] of the ordinals. *)
Definition names : KCDB :=
  {| kc_flag_of := OREADER;
     kc_data := {[ "ZWIMER-03065" := repr_int 0; "ZWIMER-03066" := repr_int 1 ]} |}.

Definition world : World Z :=
  {| self := {| desctiporDB := "store"; db := Scenario.store;
                index := Scenario.molindex; inchikey := Assigned None;
                name := Some (NameDB names); options := None;
                datanames := ["MW"; "LogP"]; dataindices := [0; 1]%nat |};
     trace := [] |}.
End NamedStore.

Module Plain.
(** A store whose columns are all data columns. *)
Definition store : raw.RawStore Z :=
  {| raw.N := 1;
     raw.colnames := ["MW"; "LogP"];
     raw.get := Scenario.get_row [[123; 11]];
     raw.getDict := λ _, Raises (IndexError "index out of range");
     raw.close := λ _, Returns () |}.

Definition dir : StoreDir Z :=
  {| dbdir := "plain";
     open_raw := λ _, Returns store;
     open_molindex := Returns Scenario.molindex;
     inchikey_kch := None;
     name_kch := None;
     options_file := None |}.

Definition world : World Z :=
  default Scenario.world (world_after_open Scenario.runtime dir READONLY).
End Plain.

Module WithOptions.
(** The scenario's store with an options record and an engine that
    knows the descriptor sets it is asked for. *)
Definition runtime : Runtime :=
  {| kyotocabinet := true;
     MakeGenerator :=
       Some (λ names, Returns (PyObject ("generator of " +:+ join_comma names)));
     eval_code := λ V _ _ w, (Raises (SyntaxError "invalid syntax"), w) |}.

Definition opts : gmap string pyval :=
  {[ "descriptors" := PyStr "Morgan3Counts,RDKit2D" ]}.

Definition world : World Z :=
  {| self := {| desctiporDB := "store"; db := Scenario.store;
                index := Scenario.molindex; inchikey := Assigned None;
                name := None; options := Some opts;
                datanames := ["MW"; "LogP"]; dataindices := [0; 1]%nat |};
     trace := [] |}.
End WithOptions.

Module Stuck.
(** The scenario's store with an index whose [close()] fails. *)
Definition close_failed : exn := OtherError "IOError" "close failed".

Definition molindex : MolFileIndex.MolFileIndex :=
  {| MolFileIndex.get := Scenario.get_row Scenario.records;
     MolFileIndex.iter := (Scenario.records, None);
     MolFileIndex.close := λ _, Raises close_failed |}.

Definition world : World Z :=
  {| self := {| desctiporDB := "store"; db := Scenario.store;
                index := molindex; inchikey := inchikey (self Scenario.world);
                name := None; options := None;
                datanames := ["MW"; "LogP"]; dataindices := [0; 1]%nat |};
     trace := [] |}.
End Stuck.

Module Hostile.
(** The scenario's store with a content-key store in which the value of
    ["KEY-X"] is the text of an expression, and an evaluator that knows
    this expression: [self.dataindices.pop()] removes the last element
    of the list and returns it, or raises on the empty list. *)
Definition pop_dataindices {V} (w : World V) : outcome pyval * World V :=
  let st := self w in
  match last (dataindices st) with
  | Some j =>
      (Returns (PyInt (Z.of_nat j)),
       {| self := {| desctiporDB := desctiporDB st; db := db st;
                     index := index st; inchikey := inchikey st;
                     name := name st; options := options st;
                     datanames := datanames st;
                     dataindices := removelast (dataindices st) |};
          trace := trace w |})
  | None => (Raises (IndexError "pop from empty list"), w)
  end.

Definition runtime : Runtime :=
  {| kyotocabinet := true;
     MakeGenerator := None;
     eval_code := λ V text _ w,
       if decide (text = "self.dataindices.pop()") then pop_dataindices w
       else (Raises (SyntaxError "invalid syntax"), w) |}.

Definition dir : StoreDir Z :=
  {| dbdir := "store";
     open_raw := λ _, Returns Scenario.store;
     open_molindex := Returns Scenario.molindex;
     inchikey_kch := Some {[ "KEY-X" := "self.dataindices.pop()" ]};
     name_kch := None;
     options_file := None |}.

Definition world : World Z :=
  default Scenario.world (world_after_open runtime dir READONLY).
End Hostile.

(** * Properties *)

Ltac run_method :=
  unfold run_call, next, close, __len__, getDescriptorCalculator,
    getDescriptorNames, getDescriptors, getDescriptorsAsDict, descriptors,
    molIndex, lookupName, lookupInchiKey, py_eval, close_handle, read_attr,
    try_except, mbind, M_bind, mret, M_ret, raise, lift, emit, get_self,
    get_trace, set_name;
  simpl.

(** ** Substring test *)

Lemma string_app_cons (a : ascii) (s t : string) :
  String a s +:+ t = String a (s +:+ t).
Proof. reflexivity. Qed.

Lemma startswith_spec (p s : string) :
  startswith p s = true ↔ ∃ b, s = p +:+ b.
Proof.
  revert s. induction p as [|a p IH]; intros s; simpl.
  - split; [intros _; by exists s | done].
  - destruct s as [|c s].
    + split; [done | intros [b Hb]; discriminate Hb].
    + rewrite andb_true_iff, bool_decide_eq_true, IH. split.
      * intros [-> [b ->]]. by exists b.
      * intros [b Hb]. rewrite string_app_cons in Hb. simplify_eq. eauto.
Qed.

Lemma py_in_spec (sub s : string) :
  py_in sub s = true ↔ ∃ a b, s = a +:+ sub +:+ b.
Proof.
  induction s as [|c s IH]; simpl.
  - rewrite orb_false_r, startswith_spec. split.
    + intros [b Hb]. by exists EmptyString, b.
    + intros [[|a0 a] [b Hb]]; [by exists b | discriminate Hb].
  - rewrite orb_true_iff, startswith_spec, IH. split.
    + intros [[b Hb]|(a & b & ->)].
      * by exists EmptyString, b.
      * by exists (String c a), b.
    + intros [[|a0 a] [b Hb]].
      * left. by exists b.
      * right. rewrite string_app_cons in Hb. simplify_eq. by exists a, b.
Qed.

(** ** The column partition *)

Lemma enumerate_from_lookup {A} (l : list A) (k j : nat) (x : A) :
  (j, x) ∈ enumerate_from k l ↔ (k ≤ j)%nat ∧ l !! (j - k)%nat = Some x.
Proof.
  revert k. induction l as [|y l IH]; intros k; simpl.
  - rewrite elem_of_nil. split; [done | by intros [_ ?]].
  - rewrite elem_of_cons, IH. split.
    + intros [[= -> ->]|[Hk Hl]].
      * split; [lia|]. by rewrite Nat.sub_diag.
      * split; [lia|]. replace (j - k)%nat with (S (j - S k)) by lia. done.
    + intros [Hk Hl]. destruct (decide (j = k)) as [->|Hne].
      * left. rewrite Nat.sub_diag in Hl. by injection Hl as ->.
      * right. split; [lia|].
        replace (j - k)%nat with (S (j - S k)) in Hl by lia. done.
Qed.

Lemma enumerate_from_snd {A} (f : A → bool) (l : list A) (k : nat) :
  (filter (λ p : nat * A, f p.2) (enumerate_from k l)).*2 = filter (λ x, f x) l.
Proof.
  revert k. induction l as [|y l IH]; intros k; [done|]. simpl.
  rewrite !filter_cons. simpl. destruct (decide (f y)); simpl; by rewrite IH.
Qed.

Lemma enumerate_from_fst_bound {A} (P : nat * A → Prop) `{!∀ x, Decision (P x)}
    (l : list A) (k : nat) :
  Forall (λ j, k ≤ j)%nat (filter P (enumerate_from k l)).*1.
Proof.
  revert k. induction l as [|y l IH]; intros k; [constructor|]. simpl.
  rewrite filter_cons.
  assert (Forall (λ j, k ≤ j)%nat (filter P (enumerate_from (S k) l)).*1).
  { eapply Forall_impl; [apply IH|]. simpl. lia. }
  destruct (decide (P (k, y))); simpl; [constructor; [lia|done] | done].
Qed.

Lemma enumerate_from_fst_sorted {A} (P : nat * A → Prop) `{!∀ x, Decision (P x)}
    (l : list A) (k : nat) :
  StronglySorted lt (filter P (enumerate_from k l)).*1.
Proof.
  revert k. induction l as [|y l IH]; intros k; [constructor|]. simpl.
  rewrite filter_cons. destruct (decide (P (k, y))); simpl; [|apply IH].
  constructor; [apply IH|].
  eapply Forall_impl; [apply (enumerate_from_fst_bound P l (S k))|]. simpl. lia.
Qed.

Lemma datacols_lookup (colnames : list string) (k j : nat) :
  init_dataindices colnames !! k = Some j →
  ∃ nm, colnames !! j = Some nm ∧ init_datanames colnames !! k = Some nm
        ∧ is_datacol nm = true.
Proof.
  unfold init_dataindices, init_datanames. rewrite !list_lookup_fmap.
  destruct (datacols colnames !! k) as [[j' nm]|] eqn:Hk; [|done].
  simpl. intros [= ->]. exists nm.
  apply list_elem_of_lookup_2 in Hk. unfold datacols in Hk.
  apply list_elem_of_filter in Hk as [HP Hin]. simpl in HP.
  apply enumerate_from_lookup in Hin as [_ Hin]. rewrite Nat.sub_0_r in Hin.
  split_and!; [done..|]. by apply Is_true_true.
Qed.

Lemma dataindices_elem (colnames : list string) (j : nat) :
  j ∈ init_dataindices colnames ↔
  ∃ nm, colnames !! j = Some nm ∧ is_datacol nm = true.
Proof.
  unfold init_dataindices, datacols. rewrite list_elem_of_fmap. split.
  - intros [[j' nm] [-> Hin]]. simpl.
    apply list_elem_of_filter in Hin as [HP Hin]. simpl in HP.
    apply enumerate_from_lookup in Hin as [_ Hin]. rewrite Nat.sub_0_r in Hin.
    exists nm. split; [done|]. by apply Is_true_true.
  - intros [nm [Hj HP]]. exists (j, nm). split; [done|].
    apply list_elem_of_filter. split; [by apply Is_true_true|].
    apply enumerate_from_lookup. rewrite Nat.sub_0_r. split; [lia|done].
Qed.




(** ** Frame: what a call can change *)

Lemma same_but_name_refl {V} (st : DescriptaStore V) : same_but_name st st.
Proof. by repeat split. Qed.

Lemma same_but_name_trans {V} (st1 st2 st3 : DescriptaStore V) :
  same_but_name st1 st2 → same_but_name st2 st3 → same_but_name st1 st3.
Proof. unfold same_but_name. intros. destruct_and!. split_and!; congruence. Qed.

Lemma code_free_same {V} (st st' : DescriptaStore V) (c : call) :
  inchikey st' = inchikey st → code_free st c → code_free st' c.
Proof. intros Hik. destruct c; try done. simpl. by rewrite Hik. Qed.

Lemma code_free_unset {V} (st : DescriptaStore V) (c : call) :
  inchikey st = Unset → code_free st c.
Proof. intros Hik. destruct c; try done. simpl. by rewrite Hik. Qed.

(** A call that runs no stored code changes no attribute but, at most,
    [self.name]. *)
Lemma run_call_frame {V} (rt : Runtime) (c : call) (w : World V) :
  code_free (self w) c →
  same_but_name (self w) (self (run_call rt c w)).
Proof.
  intros Hfree.
  destruct c;
    try (run_method; repeat case_match; simplify_eq/=; by repeat split).
  simpl in Hfree. run_method.
  destruct (inchikey (self w)) as [|[kc|]] eqn:Hik; simpl;
    try apply same_but_name_refl.
  destruct (kc_data kc !! key) as [text|] eqn:Hk; simpl;
    [|apply same_but_name_refl].
  destruct (Hfree kc text eq_refl Hk) as [v Hv]. rewrite Hv.
  apply same_but_name_refl.
Qed.

Lemma run_calls_frame {V} (rt : Runtime) (cs : list call) (w : World V) :
  Forall (code_free (self w)) cs →
  same_but_name (self w) (self (run_calls rt cs w)).
Proof.
  revert w. induction cs as [|c cs IH]; intros w Hfree; simpl.
  - apply same_but_name_refl.
  - apply Forall_cons in Hfree as [Hc Hcs].
    pose proof (run_call_frame rt c w Hc) as Hframe.
    eapply same_but_name_trans; [exact Hframe|]. apply IH.
    eapply Forall_impl; [exact Hcs|]. intros c'.
    apply code_free_same. by destruct Hframe as (_ & _ & _ & ? & _).
Qed.

Lemma init_partition {V} (rt : Runtime) (dir : StoreDir V) (mode : Mode)
    (w0 : World V) :
  world_after_open rt dir mode = Some w0 →
  datanames (self w0) = init_datanames (raw.colnames (db (self w0)))
  ∧ dataindices (self w0) = init_dataindices (raw.colnames (db (self w0))).
Proof.
  unfold world_after_open, __init__. intros H.
  repeat case_match; by simplify_eq/=.
Qed.


(** C10 (amended). The partition computed at open: a column is left out
    of the data subset exactly when its name contains ["_calculated"]
    somewhere; the cached indices are positions of declared columns; the
    data names are the remaining declared names in declared order, each
    cached index points at its name, the cached indices increase
    strictly; and no sequence of calls that executes no stored text as
    code changes the cached names, the cached indices or the declared
    columns. *)
Theorem data_column_partition {V} (rt : Runtime) (dir : StoreDir V)
    (mode : Mode) (w0 : World V) :
  world_after_open rt dir mode = Some w0 →
  (∀ j nm, raw.colnames (db (self w0)) !! j = Some nm →
     j ∉ dataindices (self w0) ↔ ∃ a b, nm = a +:+ "_calculated" +:+ b)
  ∧ (∀ j, j ∈ dataindices (self w0) →
       (j < length (raw.colnames (db (self w0))))%nat)
  ∧ datanames (self w0)
    = filter (λ nm, is_datacol nm) (raw.colnames (db (self w0)))
  ∧ (∀ k j, dataindices (self w0) !! k = Some j →
       datanames (self w0) !! k = raw.colnames (db (self w0)) !! j)
  ∧ StronglySorted lt (dataindices (self w0))
  ∧ (∀ cs, Forall (code_free (self w0)) cs →
         datanames (self (run_calls rt cs w0)) = datanames (self w0)
         ∧ dataindices (self (run_calls rt cs w0)) = dataindices (self w0)
         ∧ raw.colnames (db (self (run_calls rt cs w0)))
           = raw.colnames (db (self w0))).
Proof.
  intros Hopen. destruct (init_partition _ _ _ _ Hopen) as [Hn Hi].
  split_and!.
  - intros j nm Hj. rewrite Hi, dataindices_elem, <- py_in_spec. split.
    + intros Hno. destruct (py_in "_calculated" nm) eqn:Hin; [done|].
      exfalso. apply Hno. exists nm. split; [done|].
      unfold is_datacol. by rewrite Hin.
    + intros Hin (nm' & Hj' & Hd). simplify_eq.
      unfold is_datacol in Hd. by rewrite Hin in Hd.
  - intros j Hj. rewrite Hi in Hj.
    apply dataindices_elem in Hj as (nm & Hnm & _).
    by apply lookup_lt_Some in Hnm.
  - rewrite Hn. unfold init_datanames, datacols, enumerate.
    apply (enumerate_from_snd is_datacol).
  - intros k j Hk. rewrite Hi in Hk.
    destruct (datacols_lookup _ _ _ Hk) as (nm & -> & Hnm & _). by rewrite Hn.
  - rewrite Hi. unfold init_dataindices, datacols, enumerate.
    apply enumerate_from_fst_sorted.
  - intros cs Hfree.
    destruct (run_calls_frame rt cs w0 Hfree) as (_ & -> & _ & _ & _ & -> & ->).
    done.
Qed.

Lemma data_column_partition_witness :
  world_after_open Scenario.runtime Scenario.dir READONLY = Some Scenario.world
  ∧ datanames (self Scenario.world)
    = filter (λ nm, is_datacol nm) (raw.colnames (db (self Scenario.world)))
  ∧ StronglySorted lt (dataindices (self Scenario.world)).
Proof.
  pose proof (data_column_partition Scenario.runtime Scenario.dir READONLY
                Scenario.world eq_refl) as (_ & _ & Hnames & _ & Hsorted & _).
  split; [reflexivity | split; assumption].
Defined.

(** C10, as stated, fails in its last part: [lookupInchiKey] evaluates
    the stored text with the facade in scope, and the stored text
    [self.dataindices.pop()] takes the last cached index away. *)
Lemma stored_code_changes_partition :
  ¬ (∀ (rt : Runtime) (dir : StoreDir Z) (mode : Mode) (w0 : World Z)
       (cs : list call),
       world_after_open rt dir mode = Some w0 →
       dataindices (self (run_calls rt cs w0)) = dataindices (self w0)).
Proof.
  intros H.
  specialize (H Hostile.runtime Hostile.dir READONLY Hostile.world
                [Call_lookupInchiKey "KEY-X"] eq_refl).
  vm_compute in H. discriminate H.
Qed.



(** ** [eval] reads back what [repr] prints *)

Lemma string_app_assoc (s t u : string) : (s +:+ t) +:+ u = s +:+ (t +:+ u).
Proof. induction s as [|a s IH]; [done|]. by rewrite !string_app_cons, IH. Qed.

Lemma string_app_length (s t : string) :
  String.length (s +:+ t) = (String.length s + String.length t)%nat.
Proof. induction s as [|a s IH]; [done|]. rewrite string_app_cons. simpl. by rewrite IH. Qed.

Lemma string_app_nil_r (s : string) : s +:+ EmptyString = s.
Proof. induction s as [|a s IH]; [done|]. by rewrite string_app_cons, IH. Qed.

Lemma take_digits_uint (u : Decimal.uint) (rest : string) :
  no_digit_ahead rest →
  take_digits (NilEmpty.string_of_uint u +:+ rest)
  = (NilEmpty.string_of_uint u, rest).
Proof.
  intros Hrest. induction u; simpl;
    rewrite ?string_app_cons; simpl; rewrite ?IHu; try done.
  destruct rest as [|c rest]; [done|]. simpl in *. by rewrite Hrest.
Qed.

Lemma uint_of_digits_uint (u : Decimal.uint) :
  u ≠ Decimal.Nil →
  uint_of_digits (NilEmpty.string_of_uint u) = Some u.
Proof.
  intros Hu. unfold uint_of_digits.
  destruct (NilEmpty.string_of_uint u) eqn:Hs.
  - by destruct u.
  - rewrite <- Hs. apply NilEmpty.usu.
Qed.

Lemma canonical_unorm (u : Decimal.uint) : canonical (Decimal.unorm u) = true.
Proof. induction u; simpl; done. Qed.

Lemma canonical_pos (p : positive) : canonical (Pos.to_uint p) = true.
Proof.
  pose proof (DecimalPos.Unsigned.to_of (Pos.to_uint p)) as H.
  rewrite DecimalPos.Unsigned.of_to in H. simpl in H. rewrite H.
  apply canonical_unorm.
Qed.

Lemma parse_unsigned_uint (u : Decimal.uint) (rest : string) :
  u ≠ Decimal.Nil → canonical u = true → no_digit_ahead rest →
  parse_unsigned (NilEmpty.string_of_uint u +:+ rest)
  = Some (Z.of_uint u, rest).
Proof.
  intros Hu Hc Hrest. unfold parse_unsigned.
  rewrite take_digits_uint by done. rewrite uint_of_digits_uint by done.
  by rewrite Hc.
Qed.

Lemma digit_ahead_uint (u : Decimal.uint) (rest : string) :
  u ≠ Decimal.Nil → digit_ahead (NilEmpty.string_of_uint u +:+ rest).
Proof. by destruct u. Qed.

Lemma parse_int_digit (s : string) :
  digit_ahead s → parse_int s = parse_unsigned s.
Proof.
  destruct s as [|c s]; [done|]. simpl. intros Hc.
  destruct c as [[] [] [] [] [] [] [] []]; done.
Qed.

Lemma skip_spaces_digit (s : string) : digit_ahead s → skip_spaces s = s.
Proof.
  destruct s as [|c s]; [done|]. simpl. intros Hc.
  destruct c as [[] [] [] [] [] [] [] []]; done.
Qed.

Lemma parse_int_uint (u : Decimal.uint) (rest : string) :
  u ≠ Decimal.Nil → canonical u = true → no_digit_ahead rest →
  parse_int (NilEmpty.string_of_uint u +:+ rest) = Some (Z.of_uint u, rest)
  ∧ skip_spaces (NilEmpty.string_of_uint u +:+ rest)
    = NilEmpty.string_of_uint u +:+ rest.
Proof.
  intros Hu Hc Hrest.
  pose proof (digit_ahead_uint u rest Hu) as Hd.
  rewrite parse_int_digit, skip_spaces_digit by done.
  by rewrite parse_unsigned_uint.
Qed.

Lemma parse_int_repr (z : Z) (rest : string) :
  no_digit_ahead rest →
  parse_int (repr_int z +:+ rest) = Some (z, rest)
  ∧ skip_spaces (repr_int z +:+ rest) = repr_int z +:+ rest.
Proof.
  intros Hrest. unfold repr_int.
  destruct z as [|p|p]; cbn [Z.to_int NilEmpty.string_of_int].
  - by apply (parse_int_uint Decimal.zero).
  - pose proof (DecimalPos.Unsigned.to_uint_nonnil p) as Hnil.
    destruct (parse_int_uint (Pos.to_uint p) rest) as [-> ->];
      auto using canonical_pos.
    split; [|done]. unfold Z.of_uint.
    by rewrite DecimalPos.Unsigned.of_to.
  - pose proof (DecimalPos.Unsigned.to_uint_nonnil p) as Hnil.
    cbn [NilEmpty.string_of_int]. rewrite string_app_cons. cbn [parse_int skip_spaces].
    rewrite parse_unsigned_uint by auto using canonical_pos.
    split; [|done]. unfold Z.of_uint.
    by rewrite DecimalPos.Unsigned.of_to.
Qed.

Lemma repr_items_no_digit (l : list Z) (tail : string) :
  no_digit_ahead (repr_items l +:+ tail).
Proof. by destruct l. Qed.

Lemma repr_items_length (l : list Z) :
  (length l < String.length (repr_items l))%nat.
Proof.
  induction l as [|z l IH]; cbn [repr_items length]; [simpl; lia|].
  rewrite !string_app_length. simpl. lia.
Qed.

Lemma repr_items_cons (z : Z) (l : list Z) (tail : string) :
  repr_items (z :: l) +:+ tail
  = String "," (String " " (repr_int z +:+ (repr_items l +:+ tail))).
Proof. cbn [repr_items]. by rewrite !string_app_assoc. Qed.

Lemma parse_items_repr (l : list Z) (tail : string) (acc : list Z) (fuel : nat) :
  (length l < fuel)%nat →
  parse_items fuel (repr_items l +:+ tail) acc = Some (rev acc ++ l, tail).
Proof.
  revert acc fuel. induction l as [|z l IH]; intros acc [|fuel] Hfuel;
    try (simpl in Hfuel; lia).
  - simpl. by rewrite app_nil_r.
  - simpl in Hfuel. rewrite repr_items_cons. cbn [parse_items skip_spaces].
    destruct (parse_int_repr z (repr_items l +:+ tail)
                (repr_items_no_digit l tail)) as [Hint Hskip].
    rewrite Hskip, Hint. rewrite IH by lia.
    cbn [rev]. by rewrite <- app_assoc.
Qed.


(** [eval(repr(l))] is [l], for every list of integers. *)
Lemma literal_eval_repr_list (l : list Z) :
  literal_eval (repr_list l) = Some (PyList l).
Proof.
  destruct l as [|z l]; [done|]. unfold repr_list, literal_eval.
  rewrite string_app_cons. cbn [skip_spaces]. unfold parse_list_body.
  change ("" +:+ ?s) with s.
  pose proof (repr_items_no_digit l EmptyString) as Hnd.
  rewrite string_app_nil_r in Hnd.
  destruct (parse_int_repr z (repr_items l) Hnd) as [Hint Hskip].
  rewrite Hskip.
  assert (Hnb : ∀ tail, repr_int z +:+ repr_items l ≠ String "]" tail).
  { intros tail. unfold repr_int.
    destruct z as [|p|p]; cbn [Z.to_int NilEmpty.string_of_int]; [done| |done].
    pose proof (DecimalPos.Unsigned.to_uint_nonnil p).
    by destruct (Pos.to_uint p). }
  destruct (repr_int z +:+ repr_items l) as [|c s] eqn:Hr.
  - discriminate Hint.
  - assert (parse_items (S (String.length (repr_items l))) (repr_items l) [z]
            = Some (z :: l, EmptyString)) as Hitems.
    { rewrite <- (string_app_nil_r (repr_items l)) at 2.
      rewrite parse_items_repr; [done|]. pose proof (repr_items_length l). lia. }
    destruct c as [[] [] [] [] [] [] [] []];
      try (lazy beta iota; rewrite Hint, Hitems; done).
    by destruct (Hnb s).
Qed.

(** ** [lookupInchiKey] *)

(** What [lookupInchiKey] does once [__init__] has assigned
    [self.inchikey]. *)
Lemma lookupInchiKey_assigned {V} (rt : Runtime) (w : World V)
    (ik : option KCDB) (key : string) :
  inchikey (self w) = Assigned ik →
  lookupInchiKey rt key w
  = match ik with
    | None => (Raises (ValueError "Inchi index not available"), w)
    | Some kc =>
        match kc_data kc !! key with
        | None => (Raises (KeyError key), w)
        | Some text => py_eval rt text key w
        end
    end.
Proof.
  intros Hik. run_method. rewrite Hik. simpl.
  destruct ik as [kc|]; [|done]. by destruct (kc_data kc !! key).
Qed.

(** A key stored with the [repr] of a list of ordinals gives back that
    list. *)
Lemma lookupInchiKey_ordinals {V} (rt : Runtime) (w : World V) (kc : KCDB)
    (key : string) (l : list Z) :
  inchikey (self w) = Assigned (Some kc) →
  kc_data kc !! key = Some (repr_list l) →
  lookupInchiKey rt key w = (Returns (PyList l), w).
Proof.
  intros Hik Hkey. rewrite (lookupInchiKey_assigned rt w (Some kc)) by done.
  rewrite Hkey. unfold py_eval. by rewrite literal_eval_repr_list.
Qed.




(** C2. When [inchikey.kch] exists and kyotocabinet is not installed,
    [__init__] returns, but without having assigned [self.inchikey]: it
    is not [None], it does not exist.  Every later [lookupInchiKey]
    raises [AttributeError], not the "Inchi index not available"
    error. *)
Theorem open_without_kyotocabinet {V} (rt : Runtime) (dir : StoreDir V)
    (mode : Mode) (data : gmap string string) (w0 : World V) :
  kyotocabinet rt = false →
  inchikey_kch dir = Some data →
  world_after_open rt dir mode = Some w0 →
  inchikey (self w0) = Unset
  ∧ ∀ cs key,
      (lookupInchiKey rt key (run_calls rt cs w0)).1
      = Raises no_inchikey_attribute.
Proof.
  intros Hkc Hfile Hopen.
  assert (Hunset : inchikey (self w0) = Unset).
  { unfold world_after_open, __init__, init_inchikey in Hopen.
    rewrite Hkc, Hfile in Hopen. repeat case_match; by simplify_eq/=. }
  split; [done|]. intros cs key.
  destruct (run_calls_frame rt cs w0) as (_ & _ & _ & Hik & _).
  { apply Forall_forall. intros c _. by apply code_free_unset. }
  run_method. by rewrite Hik, Hunset.
Qed.

Lemma open_without_kyotocabinet_witness :
  world_after_open NoCabinet.runtime Scenario.dir READONLY = Some NoCabinet.world
  ∧ (lookupInchiKey NoCabinet.runtime "KEY-A" NoCabinet.world).1
    = Raises no_inchikey_attribute.
Proof.
  split; [reflexivity|].
  apply (open_without_kyotocabinet NoCabinet.runtime Scenario.dir READONLY
           {[ "KEY-A" := "[3, 7, 9]"; "KEY-B" := "7" ]} NoCabinet.world
           eq_refl eq_refl eq_refl) with (cs := []).
Defined.

(** C6. On the facade opened where [inchikey.kch] exists and
    kyotocabinet is missing, no content-key handle is open, and
    [lookupInchiKey] raises [AttributeError] where the claim has the
    "Inchi index not available" error; on the same files with
    kyotocabinet installed the three cases of the claim are as it says:
    the stored list of ordinals for a present key, [KeyError] for an
    absent one. *)
Theorem lookupInchiKey_unassigned_handle :
  inchikey (self NoCabinet.world) = Unset
  ∧ (lookupInchiKey NoCabinet.runtime "KEY-A" NoCabinet.world).1
    = Raises no_inchikey_attribute
  ∧ (lookupInchiKey NoCabinet.runtime "KEY-A" NoCabinet.world).1
    ≠ Raises (ValueError "Inchi index not available")
  ∧ (lookupInchiKey Scenario.runtime "KEY-A" Scenario.world).1
    = Returns (PyList [3; 7; 9])
  ∧ (lookupInchiKey Scenario.runtime "KEY-Z" Scenario.world).1
    = Raises (KeyError "KEY-Z").
Proof. split_and!; [reflexivity..|done|reflexivity|reflexivity]. Qed.

(** ** [close] *)

Lemma times_closed_other (h h' : handle) (t : list event) :
  h ≠ h' → times_closed h (t ++ [Closed h']) = times_closed h t.
Proof.
  intros Hne. unfold times_closed. rewrite filter_app, length_app.
  rewrite filter_cons_False by congruence. simpl. lia.
Qed.

(** What [close] does on a facade whose [self.inchikey] was assigned and
    whose [self.name] is not the fallback dictionary, when the [close()]
    of the columnar store and of the index return: it closes the
    columnar store, the index and each key store that is open, and
    returns. *)
Lemma close_releases {V} (w : World V) (ik : option KCDB) :
  inchikey (self w) = Assigned ik →
  (∀ d, name (self w) ≠ Some (NameDict d)) →
  raw.close (db (self w)) (times_closed ColumnarStore (trace w)) = Returns () →
  MolFileIndex.close (index (self w)) (times_closed OrdinalIndex (trace w))
  = Returns () →
  (close w).1 = Returns ()
  ∧ self (close w).2 = self w
  ∧ closed_handles (close w).2
    = closed_handles w ++ [ColumnarStore; OrdinalIndex]
      ++ match ik with Some _ => [InchiKeyStore] | None => [] end
      ++ match name (self w) with Some _ => [NameStore] | None => [] end.
Proof.
  intros Hik Hname Hdb Hix. run_method. rewrite Hdb. simpl.
  rewrite times_closed_other by done. rewrite Hix. simpl. rewrite Hik. simpl.
  destruct ik as [kc|]; simpl;
    (destruct (name (self w)) as [[kcn|d]|] eqn:Hn; simpl;
     [ | by destruct (Hname d) | ]);
    (split_and!; [done..|]);
    unfold closed_handles; simpl; rewrite !bind_app; simpl;
    by rewrite <- ?app_assoc.
Qed.

(** C7. [close] raises on two facades that opened successfully: where
    [inchikey.kch] exists and kyotocabinet is missing it closes the
    columnar store and the index and then raises [AttributeError] on
    reading [self.inchikey]; after the fallback of [lookupName] it
    raises [AttributeError] on closing the dictionary that replaced
    [self.name]. *)
Theorem close_raises_after_open :
  (close NoCabinet.world).1 = Raises no_inchikey_attribute
  ∧ closed_handles (close NoCabinet.world).2 = [ColumnarStore; OrdinalIndex]
  ∧ (close (lookupName "B" Scenario.world).2).1
    = Raises (AttributeError "'dict' object has no attribute 'close'")
  ∧ closed_handles (close (lookupName "B" Scenario.world).2).2
    = [ColumnarStore; OrdinalIndex; InchiKeyStore].
Proof. split_and!; reflexivity. Qed.

(** ** [getDescriptorCalculator] *)

(** C8. [getDescriptorCalculator] never raises: whatever the options, the
    engine and the world, it returns; and it returns [None] when the
    options are missing, when they have no ['descriptors'] entry, when
    the entry is no string, when the engine is not installed and when
    the engine itself raises. *)
Theorem getDescriptorCalculator_never_raises {V} (rt : Runtime) (w : World V) :
  is_raise (getDescriptorCalculator rt w).1 = false
  ∧ (options (self w) = None →
       (getDescriptorCalculator rt w).1 = Returns PyNone)
  ∧ (∀ opts, options (self w) = Some opts → opts !! "descriptors" = None →
       (getDescriptorCalculator rt w).1 = Returns PyNone)
  ∧ (∀ opts v, options (self w) = Some opts → opts !! "descriptors" = Some v →
       (∀ s, v ≠ PyStr s) →
       (getDescriptorCalculator rt w).1 = Returns PyNone)
  ∧ (MakeGenerator rt = None →
       (getDescriptorCalculator rt w).1 = Returns PyNone)
  ∧ (∀ opts s make e, options (self w) = Some opts →
       opts !! "descriptors" = Some (PyStr s) →
       MakeGenerator rt = Some make → make (split_comma s) = Raises e →
       (getDescriptorCalculator rt w).1 = Returns PyNone).
Proof.
  split_and!.
  - run_method. repeat case_match; simplify_eq/=; done.
  - intros H. run_method. by rewrite H.
  - intros opts H1 H2. run_method. by rewrite H1, H2.
  - intros opts v H1 H2 Hv. run_method. rewrite H1, H2.
    destruct v; try done. by destruct (Hv s).
  - intros H. run_method. rewrite H. repeat case_match; simplify_eq/=; done.
  - intros opts s make e H1 H2 H3 H4. run_method. by rewrite H1, H2, H3, H4.
Qed.

Lemma getDescriptorCalculator_never_raises_witness :
  (getDescriptorCalculator Scenario.runtime Scenario.world).1 = Returns PyNone.
Proof.
  apply (getDescriptorCalculator_never_raises Scenario.runtime Scenario.world).
  reflexivity.
Defined.

(** ** [lookupName] *)

(** *** The not-found message names the key *)

Lemma unrepr_repr_char (q c : ascii) (rest : string) :
  q = squote ∨ q = dquote →
  unrepr_chars q (repr_char q c +:+ rest) = String c (unrepr_chars q rest).
Proof.
  intros [-> | ->]; destruct c as [[] [] [] [] [] [] [] []]; reflexivity.
Qed.

Lemma unrepr_repr_chars (q : ascii) (s tail : string) :
  q = squote ∨ q = dquote →
  unrepr_chars q (repr_chars q s +:+ String q tail) = s.
Proof.
  intros Hq. induction s as [|c s IH].
  - change (unrepr_chars q (String q tail) = EmptyString). simpl.
    by rewrite bool_decide_true.
  - cbn [repr_chars]. rewrite string_app_assoc, unrepr_repr_char by done.
    by rewrite IH.
Qed.

Lemma key_of_message_name_not_found (nm : string) :
  key_of_message (name_not_found nm) = nm.
Proof.
  unfold name_not_found, repr_str.
  set (q := if has_char squote nm && negb (has_char dquote nm)
            then dquote else squote).
  assert (Hq : q = squote ∨ q = dquote).
  { unfold q. destruct (_ && _); auto. }
  change (unrepr_chars q ((repr_chars q nm +:+ String q EmptyString)
                            +:+ " not found") = nm).
  rewrite string_app_assoc. by apply unrepr_repr_chars.
Qed.

Lemma name_not_found_inj (nm nm' : string) :
  name_not_found nm' = name_not_found nm → nm' = nm.
Proof.
  intros H. apply (f_equal key_of_message) in H.
  by rewrite !key_of_message_name_not_found in H.
Qed.

(** C9. Once [self.name] is a mapping, [lookupName] returns the row when
    [int(self.name[name])] yields one, and in every other case raises
    the one not-found error that names the key: for the absent key of a
    kyotocabinet store, for the absent key of the fallback dictionary,
    and just the same for a stored text that is no integer; it raises no
    other error.  The message of that error names the key: it is the
    message of no other key. *)
Theorem lookupName_decode_failure_is_not_found {V} (w : World V)
    (nm : string) (n : name_index) :
  name (self w) = Some n →
  (lookupName nm w).1
  = match name_row (Some n) nm with
    | Returns row => Returns row
    | Raises _ => Raises (IndexError (name_not_found nm))
    end
  ∧ (∀ kc text, n = NameDB kc → kc_data kc !! nm = Some text →
       is_raise (py_int text) = true →
       (lookupName nm w).1 = Raises (IndexError (name_not_found nm)))
  ∧ (∀ kc, n = NameDB kc → kc_data kc !! nm = None →
       (lookupName nm w).1 = Raises (IndexError (name_not_found nm)))
  ∧ (∀ d, n = NameDict d → d !! nm = None →
       (lookupName nm w).1 = Raises (IndexError (name_not_found nm)))
  ∧ (∀ e, (lookupName nm w).1 = Raises e → e = IndexError (name_not_found nm))
  ∧ (∀ nm', name_not_found nm' = name_not_found nm → nm' = nm).
Proof.
  intros Hn.
  assert (Hrun : (lookupName nm w).1
                 = match name_row (Some n) nm with
                   | Returns row => Returns row
                   | Raises _ => Raises (IndexError (name_not_found nm))
                   end).
  { remember (name_row (Some n) nm) as r eqn:Hr. run_method.
    rewrite Hn. simpl. rewrite Hn, <- Hr. by destruct r. }
  split_and!; [done|..].
  - intros kc text -> Hk Hraise. rewrite Hrun. simpl. rewrite Hk.
    by destruct (py_int text).
  - intros kc -> Hk. rewrite Hrun. simpl. by rewrite Hk.
  - intros d -> Hk. rewrite Hrun. simpl. by rewrite Hk.
  - intros e He. rewrite Hrun in He.
    destruct (name_row (Some n) nm); by simplify_eq.
  - intros nm'. apply name_not_found_inj.
Qed.

Lemma lookupName_decode_failure_is_not_found_witness :
  (lookupName "ZWIMER-03065" CorruptName.world).1
  = Raises (IndexError "Name 'ZWIMER-03065' not found")
  ∧ (lookupName "ZWIMER-03066" CorruptName.world).1 = Returns 1.
Proof.
  split.
  - apply (lookupName_decode_failure_is_not_found CorruptName.world
             "ZWIMER-03065" (NameDB CorruptName.names) eq_refl).
  - apply (lookupName_decode_failure_is_not_found CorruptName.world
             "ZWIMER-03066" (NameDB CorruptName.names) eq_refl).
Defined.

(** ** The fallback mapping of [lookupName] *)

Lemma build_names_sound (records : list (list string)) (i : Z)
    (d d' : gmap string Z) (nm : string) (o : Z) :
  build_names i records d = Returns d' → d' !! nm = Some o →
  d !! nm = Some o
  ∨ (i ≤ o ∧ ∃ m, records !! Z.to_nat (o - i) = Some [m; nm]).
Proof.
  revert i d. induction records as [|r records IH]; intros i d Hb Ho; simpl in Hb.
  - simplify_eq. by left.
  - destruct r as [|m [|nm' [|? ?]]]; simplify_eq/=.
    destruct (IH _ _ Hb Ho) as [Hd|[Hle [m' Hm']]].
    + destruct (decide (nm' = nm)) as [->|Hne].
      * rewrite lookup_insert_eq in Hd. simplify_eq. right. split; [lia|].
        exists m. by rewrite Z.sub_diag.
      * rewrite lookup_insert_ne in Hd by done. by left.
    + right. split; [lia|]. exists m'.
      replace (Z.to_nat (o - i)) with (S (Z.to_nat (o - (i + 1)))) by lia.
      done.
Qed.

Lemma build_names_keeps (records : list (list string)) (i : Z)
    (d d' : gmap string Z) (nm : string) (o : Z) :
  build_names i records d = Returns d' → d !! nm = Some o →
  ∃ o', d' !! nm = Some o' ∧ (o' = o ∨ i ≤ o').
Proof.
  revert i d o. induction records as [|r records IH]; intros i d o Hb Ho;
    simpl in Hb.
  - simplify_eq. eauto.
  - destruct r as [|m [|nm' [|? ?]]]; simplify_eq/=.
    destruct (decide (nm' = nm)) as [->|Hne].
    + destruct (IH (i + 1) (<[nm:=i]> d) i Hb) as (o' & Ho' & Hor).
      { by rewrite lookup_insert_eq. }
      exists o'. split; [done|]. right. lia.
    + destruct (IH (i + 1) (<[nm':=i]> d) o Hb) as (o' & Ho' & Hor).
      { by rewrite lookup_insert_ne. }
      exists o'. split; [done|]. destruct Hor; [by left | right; lia].
Qed.

Lemma build_names_complete (records : list (list string)) (i : Z)
    (d d' : gmap string Z) (k : nat) (r : list string) :
  build_names i records d = Returns d' → records !! k = Some r →
  ∃ m nm o, r = [m; nm] ∧ d' !! nm = Some o ∧ i + Z.of_nat k ≤ o.
Proof.
  revert i d k. induction records as [|r' records IH]; intros i d k Hb Hk;
    [done|]. simpl in Hb.
  destruct r' as [|m [|nm' [|? ?]]]; simplify_eq/=.
  destruct k as [|k]; simplify_eq/=.
  - destruct (build_names_keeps _ _ _ _ nm' i Hb) as (o' & Ho' & Hor).
    { by rewrite lookup_insert_eq. }
    exists m, nm', o'. split_and!; [done..|]. lia.
  - destruct (IH _ _ _ Hb Hk) as (m' & nm & o & -> & Ho & Hle).
    exists m', nm, o. split_and!; [done..|]. lia.
Qed.

Lemma scans_emit {V} (w : World V) (e : event) :
  scans {| self := self w; trace := trace w ++ [e] |}
  = (scans w + if decide (e = IndexScan) then 1 else 0)%nat.
Proof.
  unfold scans. simpl. rewrite filter_app, length_app. f_equal.
  rewrite filter_cons. by destruct (decide (e = IndexScan)).
Qed.

Lemma scans_trace {V} (w w' : World V) (evs : list event) :
  trace w' = trace w ++ evs → Forall (λ e, e ≠ IndexScan) evs →
  scans w' = scans w.
Proof.
  unfold scans. intros -> Hevs. rewrite filter_app, length_app.
  assert (filter (λ e, e = IndexScan) evs = []) as ->; [|simpl; lia].
  induction Hevs as [|e evs He _ IH]; [done|].
  by rewrite filter_cons_False.
Qed.

(** A call that runs no stored code on a facade whose [self.name] is set
    does not scan the index and leaves [self.name] as it is. *)
Lemma run_call_no_scan {V} (rt : Runtime) (c : call) (w : World V) :
  name (self w) ≠ None →
  code_free (self w) c →
  scans (run_call rt c w) = scans w
  ∧ name (self (run_call rt c w)) = name (self w).
Proof.
  intros Hn Hfree. destruct (name (self w)) as [n|] eqn:Hname; [clear Hn|done].
  destruct c;
    try (run_method; rewrite ?Hname; simpl; rewrite ?Hname;
         repeat case_match; simplify_eq/=;
         (split; [|done]);
         unfold scans; simpl; rewrite ?filter_app, ?length_app; simpl; lia).
  simpl in Hfree. run_method.
  destruct (inchikey (self w)) as [|[kc|]] eqn:Hik; simpl; try done.
  destruct (kc_data kc !! key) as [text|] eqn:Hk; simpl; [|done].
  destruct (Hfree kc text eq_refl Hk) as [v Hv]. by rewrite Hv.
Qed.

(** A [lookupInchiKey] that runs no stored code leaves [self.name] and
    the trace as they are. *)
Lemma lookupInchiKey_literal_call {V} (rt : Runtime) (c : call) (w : World V) :
  code_free (self w) c →
  (∃ key, c = Call_lookupInchiKey key) →
  name (self (run_call rt c w)) = name (self w) ∧ trace (run_call rt c w) = trace w.
Proof.
  intros Hfree [key ->]. simpl in Hfree. run_method.
  destruct (inchikey (self w)) as [|[kc|]] eqn:Hik; simpl; try done.
  destruct (kc_data kc !! key) as [text|] eqn:Hk; simpl; [|done].
  destruct (Hfree kc text eq_refl Hk) as [v Hv]. by rewrite Hv.
Qed.

Lemma run_calls_no_scan {V} (rt : Runtime) (cs : list call) (w : World V) :
  name (self w) ≠ None →
  Forall (code_free (self w)) cs →
  scans (run_calls rt cs w) = scans w
  ∧ name (self (run_calls rt cs w)) = name (self w).
Proof.
  revert w. induction cs as [|c cs IH]; intros w Hn Hfree; [done|]. simpl.
  apply Forall_cons in Hfree as [Hc Hcs].
  destruct (run_call_no_scan rt c w Hn Hc) as [Hs Hname].
  destruct (run_call_frame rt c w Hc) as (_ & _ & _ & Hik & _).
  destruct (IH (run_call rt c w)) as [Hs' Hname']; [congruence| |].
  { eapply Forall_impl; [exact Hcs|]. intros c'. by apply code_free_same. }
  split; congruence.
Qed.

(** C4 (amended). With no name handle, [lookupName] starts one sequential
    scan of the primary ordinal index.  When the scan succeeds, the
    mapping it built replaces [self.name]: it sends every recorded name
    to the ordinal of a record of that name (the last one), the call
    answers from it, and no later call on the facade that executes no
    stored text as code scans again.  When the scan fails, the call fails with the error
    "Name index not available", which is not the not-found error, and
    [self.name] stays unset, so nothing is cached. *)
Theorem lookupName_fallback_scan {V} (rt : Runtime) (w : World V) (nm : string) :
  name (self w) = None →
  (∀ d, scan_names (index (self w)) = Returns d →
     name (self (lookupName nm w).2) = Some (NameDict d)
     ∧ scans (lookupName nm w).2 = S (scans w)
     ∧ (lookupName nm w).1
       = match d !! nm with
         | Some row => Returns row
         | None => Raises (IndexError (name_not_found nm))
         end
     ∧ (∀ nm' o, d !! nm' = Some o →
          0 ≤ o ∧ ∃ m, (MolFileIndex.iter (index (self w))).1 !! Z.to_nat o
                       = Some [m; nm'])
     ∧ (∀ k m nm', (MolFileIndex.iter (index (self w))).1 !! k = Some [m; nm'] →
          ∃ o, d !! nm' = Some o ∧ Z.of_nat k ≤ o)
     ∧ (∀ cs, Forall (code_free (self w)) cs →
              scans (run_calls rt cs (lookupName nm w).2)
              = scans (lookupName nm w).2
              ∧ name (self (run_calls rt cs (lookupName nm w).2))
                = Some (NameDict d)))
  ∧ (∀ e, scan_names (index (self w)) = Raises e →
       (lookupName nm w).1 = Raises (ValueError "Name index not available")
       ∧ name (self (lookupName nm w).2) = None
       ∧ scans (lookupName nm w).2 = S (scans w)).
Proof.
  intros Hn. split.
  - intros d Hscan.
    assert (Hname : name (self (lookupName nm w).2) = Some (NameDict d)).
    { run_method. rewrite Hn. simpl. rewrite Hscan. simpl.
      by destruct (d !! nm). }
    assert (Hscans : scans (lookupName nm w).2 = S (scans w)).
    { run_method. rewrite Hn. simpl. rewrite Hscan. simpl.
      destruct (d !! nm); unfold scans; simpl;
        rewrite ?filter_app, ?length_app; simpl; lia. }
    split_and!; [done..| | | |].
    + run_method. rewrite Hn. simpl. rewrite Hscan. simpl.
      by destruct (d !! nm).
    + intros nm' o Ho. unfold scan_names in Hscan.
      destruct (build_names 0 (MolFileIndex.iter (index (self w))).1 ∅)
        as [d0|] eqn:Hb; [|done]. simpl in Hscan.
      destruct ((MolFileIndex.iter (index (self w))).2); simplify_eq.
      destruct (build_names_sound _ _ _ _ _ _ Hb Ho) as [Hd|[Hle [m Hm]]];
        [by rewrite lookup_empty in Hd|].
      rewrite Z.sub_0_r in Hm. eauto.
    + intros k m nm' Hk. unfold scan_names in Hscan.
      destruct (build_names 0 (MolFileIndex.iter (index (self w))).1 ∅)
        as [d0|] eqn:Hb; [|done]. simpl in Hscan.
      destruct ((MolFileIndex.iter (index (self w))).2); simplify_eq.
      destruct (build_names_complete _ _ _ _ _ _ Hb Hk)
        as (m' & nm'' & o & Heq & Ho & Hle).
      simplify_eq. exists o. split; [done|lia].
    + intros cs Hfree.
      destruct (run_call_frame rt (Call_lookupName nm) w I)
        as (_ & _ & _ & Hik & _).
      destruct (run_calls_no_scan rt cs (lookupName nm w).2) as [Hs Hnm];
        [by rewrite Hname| |by rewrite Hs, Hnm].
      eapply Forall_impl; [exact Hfree|]. intros c'. by apply code_free_same.
  - intros e Hscan. run_method. rewrite Hn. simpl. rewrite Hscan. simpl.
    split_and!; [done..|].
    unfold scans; simpl; rewrite ?filter_app, ?length_app; simpl; lia.
Qed.

Lemma lookupName_fallback_scan_witness :
  (lookupName "B" Scenario.world).1 = Returns 1
  ∧ scans (lookupName "B" Scenario.world).2 = 1%nat
  ∧ scans (lookupName "A" (lookupName "B" Scenario.world).2).2 = 1%nat.
Proof.
  destruct (lookupName_fallback_scan Scenario.runtime Scenario.world "B" eq_refl)
    as [Hok _].
  destruct (Hok {[ "A" := 0; "B" := 1 ]} eq_refl)
    as (_ & Hscans & Hres & _ & _ & Hlater).
  split_and!.
  - exact Hres.
  - exact Hscans.
  - destruct (Hlater [Call_lookupName "A"]) as [Hs _];
      [by repeat constructor|].
    simpl in Hs. rewrite Hs. exact Hscans.
Defined.

(** C4, as stated, fails: on a store whose index has no names, each
    [lookupName] scans the index again. *)
Lemma failed_scan_is_repeated :
  ¬ (∀ (rt : Runtime) (dir : StoreDir Z) (mode : Mode) (w0 : World Z)
       (cs : list call),
       world_after_open rt dir mode = Some w0 → name (self w0) = None →
       (scans (run_calls rt cs w0) ≤ 1)%nat).
Proof.
  intros H.
  specialize (H Scenario.runtime Unnamed.dir READONLY Unnamed.world
                [Call_lookupName "A"; Call_lookupName "A"] eq_refl eq_refl).
  vm_compute in H. lia.
Qed.

(** ** Sequential iteration *)

Lemma getDescriptors_world {V} (i : Z) (keep : bool) (w : World V) :
  (getDescriptors i keep w).2 = w.
Proof. run_method. by repeat case_match. Qed.

Lemma next_stop {V} (it : DescriptaStoreIter) (w : World V) :
  it_i it + 1 = Z.of_nat (raw.N (db (self w))) →
  next it w = (Raises StopIteration, {| it_i := it_i it + 1 |}, w).
Proof. intros Hi. run_method. by rewrite decide_True. Qed.

Lemma next_fetch {V} (it : DescriptaStoreIter) (w : World V) :
  it_i it + 1 ≠ Z.of_nat (raw.N (db (self w))) →
  next it w
  = match fetch w (it_i it + 1) with
    | Returns p => (Returns p, {| it_i := it_i it + 1 |}, w)
    | Raises e =>
        (Raises e, {| it_i := it_i it + 1 |}, printed_failure w (it_i it + 1))
    end.
Proof.
  intros Hi. unfold fetch, printed_failure. run_method.
  rewrite decide_False by done.
  destruct (MolFileIndex.get (index (self w)) (it_i it + 1)); simpl; [|done].
  destruct (raw.get (db (self w)) (it_i it + 1)); simpl; [|done].
  by destruct (omap _ _).
Qed.

(** The loop from ordinal [k] on: it collects the pairs that remain and
    ends on [StopIteration]. *)
Lemma for_loop_exhausts {V} (w : World V) (rest acc : list (list string * list V))
    (k : nat) (fuel : nat) :
  (k + length rest = raw.N (db (self w)))%nat →
  (∀ j p, rest !! j = Some p → fetch w (Z.of_nat (k + j)) = Returns p) →
  (length rest < fuel)%nat →
  for_loop fuel {| it_i := Z.of_nat k - 1 |} w acc
  = Some (acc ++ rest, Exhausted, w).
Proof.
  revert acc k fuel. induction rest as [|p rest IH]; intros acc k [|fuel] Hn Hf Hfuel;
    try (simpl in Hfuel; lia).
  - cbn [for_loop]. rewrite next_stop by (simpl in *; lia).
    by rewrite app_nil_r.
  - cbn [for_loop]. rewrite next_fetch by (simpl in *; lia).
    cbn [it_i]. replace (Z.of_nat k - 1 + 1) with (Z.of_nat (k + 0)) by lia.
    rewrite (Hf 0%nat p eq_refl).
    replace (Z.of_nat (k + 0)) with (Z.of_nat (S k) - 1) by lia.
    rewrite (IH (acc ++ [p]) (S k) fuel).
    + by rewrite <- app_assoc.
    + simpl in Hn. lia.
    + intros j q Hj. replace (S k + j)%nat with (k + S j)%nat by lia.
      by apply Hf.
    + simpl in Hfuel. lia.
Qed.

(** The loop from ordinal [k] on when the fetch fails after the pairs
    [rest]: the pairs so far, then the error of the fetch as it is. *)
Lemma for_loop_propagates {V} (w : World V)
    (rest acc : list (list string * list V)) (e : exn) (k : nat) (fuel : nat) :
  (k + length rest < raw.N (db (self w)))%nat →
  (∀ j p, rest !! j = Some p → fetch w (Z.of_nat (k + j)) = Returns p) →
  fetch w (Z.of_nat (k + length rest)) = Raises e →
  e ≠ StopIteration →
  (length rest < fuel)%nat →
  for_loop fuel {| it_i := Z.of_nat k - 1 |} w acc
  = Some (acc ++ rest, Propagated e,
          printed_failure w (Z.of_nat (k + length rest))).
Proof.
  revert acc k fuel. induction rest as [|p rest IH];
    intros acc k [|fuel] Hn Hf He Hne Hfuel; try (simpl in Hfuel; lia).
  - cbn [for_loop]. rewrite next_fetch by (simpl in *; lia).
    cbn [it_i]. replace (Z.of_nat k - 1 + 1) with (Z.of_nat (k + 0)) by lia.
    simpl in He. rewrite He. rewrite app_nil_r. simpl. by destruct e.
  - cbn [for_loop]. rewrite next_fetch by (simpl in *; lia).
    cbn [it_i]. replace (Z.of_nat k - 1 + 1) with (Z.of_nat (k + 0)) by lia.
    rewrite (Hf 0%nat p eq_refl).
    replace (Z.of_nat (k + 0)) with (Z.of_nat (S k) - 1) by lia.
    rewrite (IH (acc ++ [p]) (S k) fuel).
    + rewrite <- app_assoc. simpl. do 3 f_equal. lia.
    + simpl in Hn. lia.
    + intros j q Hj. replace (S k + j)%nat with (k + S j)%nat by lia.
      by apply Hf.
    + simpl in He. by replace (S k + length rest)%nat
        with (k + S (length rest))%nat by lia.
    + done.
    + simpl in Hfuel. lia.
Qed.

(** C3 (amended). Iterating a store of N rows calls the fetch of [next]
    at the ordinals 0, 1, ... in order.  When it succeeds at each of
    them, the loop yields exactly the N pairs (record, descriptors
    without flags) in that order and ends by [StopIteration], which is
    not an error, leaving the world as it was.  When it first fails at
    some ordinal with an error other than [StopIteration], the loop has
    yielded the pairs before it, prints a line that names that ordinal
    on standard output and lets the error of the fetch through as it
    is. *)
Theorem iteration_in_order {V} (w : World V)
    (pairs : list (list string * list V)) (fuel : nat) :
  (∀ j p, pairs !! j = Some p → fetch w (Z.of_nat j) = Returns p) →
  (length pairs < fuel)%nat →
  (length pairs = raw.N (db (self w)) →
     iterate fuel w = Some (pairs, Exhausted, w))
  ∧ (∀ e, (length pairs < raw.N (db (self w)))%nat →
       fetch w (Z.of_nat (length pairs)) = Raises e → e ≠ StopIteration →
       iterate fuel w
       = Some (pairs, Propagated e,
               {| self := self w;
                  trace := trace w ++ [Stdout (failed_at (Z.of_nat (length pairs)))] |})).
Proof.
  intros Hf Hfuel. split.
  - intros Hn. unfold iterate, __iter__.
    apply (for_loop_exhausts w pairs [] 0 fuel); done.
  - intros e Hn He Hne. unfold iterate, __iter__.
    apply (for_loop_propagates w pairs [] e 0 fuel); done.
Qed.

Lemma iteration_in_order_witness :
  iterate 3 Scenario.world
  = Some ([(["CC"; "A"], [123; 11]); (["CCO"; "B"], [456; 22])],
          Exhausted, Scenario.world)
  ∧ iterate 2 Failing.world
    = Some ([(["CC"; "A"], [123; 11])], Propagated Failing.read_failed,
            {| self := self Failing.world;
               trace := trace Failing.world
                        ++ [Stdout "== DescriptaStoreIter Failed at index 1"] |}).
Proof.
  split.
  - apply (iteration_in_order Scenario.world
             [(["CC"; "A"], [123; 11]); (["CCO"; "B"], [456; 22])] 3).
    + intros [|[|j]] p Hj; vm_compute in Hj; [by simplify_eq..|done].
    + simpl; lia.
    + reflexivity.
  - apply (iteration_in_order Failing.world [(["CC"; "A"], [123; 11])] 2).
    + intros [|j] p Hj; vm_compute in Hj; [by simplify_eq|done].
    + simpl; lia.
    + simpl; lia.
    + reflexivity.
    + done.
Defined.

(** C3, as stated, fails in its last part: the error that leaves [next]
    is the error of the fetch, and the same error can leave it at two
    ordinals, so that no ordinal can be read off the error. *)
Lemma raised_error_does_not_identify_ordinal :
  ¬ (∃ ordinal_of : exn → Z,
       ∀ (w : World Z) (it : DescriptaStoreIter) (e : exn),
         (next it w).1.1 = Raises e → e ≠ StopIteration →
         ordinal_of e = it_i (next it w).1.2).
Proof.
  intros [ordinal_of H].
  pose proof (H Failing.world {| it_i := 0 |} Failing.read_failed
                eq_refl ltac:(done)) as H1.
  pose proof (H Failing.world {| it_i := 1 |} Failing.read_failed
                eq_refl ltac:(done)) as H2.
  vm_compute in H1, H2. congruence.
Qed.

(** * Further properties *)

(** ** Opening *)

(** X1. [DescriptaStore(dbdir, mode)] fails exactly when the columnar
    store cannot be opened, the index cannot be opened or the options
    file is there and cannot be loaded; neither a missing key store nor
    a missing kyotocabinet makes it fail.  When it returns, the instance
    holds the store and the index that were opened and the options that
    were loaded ([None] without an options file). *)
Theorem open_fails_only_on_required_parts {V} (rt : Runtime)
    (dir : StoreDir V) (mode : Mode) :
  (is_raise (__init__ rt dir mode).1 = false
   ↔ is_raise (open_raw dir mode) = false
     ∧ is_raise (open_molindex dir) = false
     ∧ ∀ e, options_file dir ≠ Some (Raises e))
  ∧ ∀ st, (__init__ rt dir mode).1 = Returns st →
      open_raw dir mode = Returns (db st)
      ∧ open_molindex dir = Returns (index st)
      ∧ desctiporDB st = dbdir dir
      ∧ match options_file dir with
        | None => options st = None
        | Some o => o = Returns (default ∅ (options st)) ∧ is_Some (options st)
        end.
Proof.
  unfold __init__. split.
  - destruct (open_raw dir mode) as [rdb|e]; simpl; [|split; [done|by intros [? _]]].
    destruct (open_molindex dir) as [ix|e]; simpl;
      [|split; [done|by intros (_ & ? & _)]].
    destruct (init_inchikey _ _ _) as [ik ev1].
    destruct (init_name _ _ _ _) as [nm ev2].
    destruct (options_file dir) as [[o|e]|]; simpl.
    + split; [|done]. intros _. by split_and!.
    + split; [done|]. intros (_ & _ & H). by destruct (H e).
    + split; [|done]. intros _. by split_and!.
  - intros st.
    destruct (open_raw dir mode) as [rdb|e]; simpl; [|done].
    destruct (open_molindex dir) as [ix|e]; simpl; [|done].
    destruct (init_inchikey _ _ _) as [ik ev1].
    destruct (init_name _ _ _ _) as [nm ev2].
    destruct (options_file dir) as [[o|e]|]; simpl; intros ?; simplify_eq/=;
      split_and!; eauto.
Qed.

(** How a call that runs no stored code can change [self.name]: not at
    all, or from [None] to the dictionary that a scan of the index
    built. *)
Lemma run_call_name {V} (rt : Runtime) (c : call) (w : World V) :
  code_free (self w) c →
  name (self (run_call rt c w)) = name (self w)
  ∨ (name (self w) = None
     ∧ ∃ nm d, c = Call_lookupName nm
               ∧ scan_names (index (self w)) = Returns d
               ∧ name (self (run_call rt c w)) = Some (NameDict d)).
Proof.
  intros Hfree.
  destruct c;
    try (run_method; repeat case_match; simplify_eq/=; by eauto 10).
  left.
  by destruct (lookupInchiKey_literal_call rt (Call_lookupInchiKey key) w Hfree)
    as [? _]; [by eexists|].
Qed.

Lemma run_calls_name {V} (rt : Runtime) (cs : list call) (w : World V) :
  Forall (code_free (self w)) cs →
  name (self (run_calls rt cs w)) = name (self w)
  ∨ (name (self w) = None
     ∧ ∃ d, scan_names (index (self w)) = Returns d
            ∧ name (self (run_calls rt cs w)) = Some (NameDict d)).
Proof.
  revert w. induction cs as [|c cs IH]; intros w Hfree; [by left|]. simpl.
  apply Forall_cons in Hfree as [Hc Hcs].
  destruct (run_call_frame rt c w Hc) as (_ & _ & Hix & Hik & _).
  destruct (IH (run_call rt c w)) as [Hsame|[Hnone (d & Hscan & Hd)]].
  { eapply Forall_impl; [exact Hcs|]. intros c'. by apply code_free_same. }
  - rewrite Hsame.
    destruct (run_call_name rt c w Hc) as [?|(? & nm & d & _ & ? & ?)]; eauto.
  - destruct (run_call_name rt c w Hc) as [Heq|(? & nm & d' & _ & ? & Hd')];
      [|congruence].
    right. split; [congruence|]. exists d. split; [|done]. by rewrite <- Hix.
Qed.

(** X2. Over any sequence of calls that executes no stored text as code
    the facade keeps the attributes that [__init__] gave it, but for one
    change: [self.name], when it is [None], can become the dictionary
    built by a scan of the index.  A kyotocabinet name handle stays the
    one that was opened, and a fallback dictionary, once built, stays
    the same dictionary. *)
Theorem facade_attributes_are_stable {V} (rt : Runtime) (cs : list call)
    (w : World V) :
  Forall (code_free (self w)) cs →
  same_but_name (self w) (self (run_calls rt cs w))
  ∧ (name (self (run_calls rt cs w)) = name (self w)
     ∨ (name (self w) = None
        ∧ ∃ d, scan_names (index (self w)) = Returns d
               ∧ name (self (run_calls rt cs w)) = Some (NameDict d))).
Proof. intros Hfree. split; [by apply run_calls_frame | by apply run_calls_name]. Qed.

Lemma facade_attributes_are_stable_witness :
  same_but_name (self Scenario.world)
    (self (run_calls Scenario.runtime
             [Call_lookupInchiKey "KEY-A"; Call_lookupName "B"; Call_close]
             Scenario.world)).
Proof.
  apply (facade_attributes_are_stable Scenario.runtime
           [Call_lookupInchiKey "KEY-A"; Call_lookupName "B"; Call_close]
           Scenario.world).
  repeat constructor. intros kc text Hkc Hkey.
  vm_compute in Hkc. simplify_eq. vm_compute in Hkey. simplify_eq.
  eexists. vm_compute. reflexivity.
Defined.




(** ** More on iteration *)

(** The loop from ordinal [k] on, with [n] ordinals left. *)
Lemma for_loop_from {V} (w : World V) (n k fuel : nat)
    (acc : list (list string * list V)) :
  (k + n = raw.N (db (self w)))%nat →
  (n < fuel)%nat →
  ∃ pairs,
    (∀ j p, pairs !! j = Some p → fetch w (Z.of_nat (k + j)) = Returns p)
    ∧ ((length pairs = n
        ∧ for_loop fuel {| it_i := Z.of_nat k - 1 |} w acc
          = Some (acc ++ pairs, Exhausted, w))
       ∨ ((length pairs < n)%nat
          ∧ ∃ e, fetch w (Z.of_nat (k + length pairs)) = Raises e
                 ∧ for_loop fuel {| it_i := Z.of_nat k - 1 |} w acc
                   = Some (acc ++ pairs, loop_end_of e,
                           printed_failure w (Z.of_nat (k + length pairs))))).
Proof.
  revert k fuel acc. induction n as [|n IH]; intros k [|fuel] acc Hn Hfuel;
    try lia.
  - exists []. split; [done|]. left. split; [done|].
    cbn [for_loop]. rewrite next_stop by (simpl; lia). by rewrite app_nil_r.
  - cbn [for_loop]. rewrite next_fetch by (simpl; lia). cbn [it_i].
    replace (Z.of_nat k - 1 + 1) with (Z.of_nat k) by lia.
    destruct (fetch w (Z.of_nat k)) as [p|e] eqn:Hk.
    + destruct (IH (S k) fuel (acc ++ [p])) as (pairs & Hp & Hend); [lia..|].
      replace (Z.of_nat (S k) - 1) with (Z.of_nat k) in Hend by lia.
      exists (p :: pairs). split.
      * intros [|j] q Hj; simplify_eq/=.
        -- by rewrite Nat.add_0_r.
        -- replace (k + S j)%nat with (S k + j)%nat by lia. by apply Hp.
      * destruct Hend as [[Hlen Hloop]|(Hlen & e & He & Hloop)].
        -- left. split; [simpl; lia|]. rewrite Hloop. by rewrite <- app_assoc.
        -- right. split; [simpl; lia|]. exists e.
           replace (k + length (p :: pairs))%nat
             with (S k + length pairs)%nat by (simpl; lia).
           split; [done|]. rewrite Hloop. by rewrite <- app_assoc.
    + exists []. split; [done|]. right. split; [simpl; lia|]. exists e.
      simpl. rewrite Nat.add_0_r, app_nil_r. split; [done|]. by destruct e.
Qed.

(** X4. A [for] loop over the store always ends, within N+1 calls of
    [next], whatever the collaborators do.  It yields the pairs fetched
    at the ordinals 0, 1, ... in order, and either all N of them, ending
    on [StopIteration] with nothing printed, or the pairs before the
    first ordinal whose fetch raises; then the failure line for that
    ordinal is printed and the error leaves the loop, unless the error
    is itself a [StopIteration], which ends the loop as if the store
    were exhausted. *)
Theorem iteration_always_ends {V} (w : World V) :
  ∃ pairs,
    (∀ j p, pairs !! j = Some p → fetch w (Z.of_nat j) = Returns p)
    ∧ ((length pairs = raw.N (db (self w))
        ∧ iterate (S (raw.N (db (self w)))) w = Some (pairs, Exhausted, w))
       ∨ ((length pairs < raw.N (db (self w)))%nat
          ∧ ∃ e, fetch w (Z.of_nat (length pairs)) = Raises e
                 ∧ iterate (S (raw.N (db (self w)))) w
                   = Some (pairs, loop_end_of e,
                           printed_failure w (Z.of_nat (length pairs))))).
Proof.
  destruct (for_loop_from w (raw.N (db (self w))) 0
              (S (raw.N (db (self w)))) []) as (pairs & Hp & Hend); [lia..|].
  exists pairs. split; [exact Hp|]. exact Hend.
Qed.

(** X5. An exhausted iterator does not stay exhausted: [next] tests
    [self.i == len(self.store)] after the increment, so the call after
    the one that raised [StopIteration] is past the test and fetches at
    ordinal N+1; it returns the pair there if the collaborators return
    one, and otherwise prints the failure line and raises their
    error. *)
Theorem next_past_the_end {V} (it : DescriptaStoreIter) (w : World V) :
  it_i it + 1 = Z.of_nat (raw.N (db (self w))) →
  next it w = (Raises StopIteration, {| it_i := it_i it + 1 |}, w)
  ∧ next {| it_i := it_i it + 1 |} w
    = match fetch w (it_i it + 2) with
      | Returns p => (Returns p, {| it_i := it_i it + 2 |}, w)
      | Raises e =>
          (Raises e, {| it_i := it_i it + 2 |},
           printed_failure w (it_i it + 2))
      end.
Proof.
  intros Hi. split; [by apply next_stop|].
  rewrite next_fetch by (simpl; lia). simpl.
  by replace (it_i it + 1 + 1) with (it_i it + 2) by lia.
Qed.

Lemma next_past_the_end_witness :
  next {| it_i := 1 |} Scenario.world
  = (Raises StopIteration, {| it_i := 2 |}, Scenario.world)
  ∧ (next {| it_i := 2 |} Scenario.world).1.1
    = Raises (IndexError "list index out of range").
Proof.
  destruct (next_past_the_end {| it_i := 1 |} Scenario.world eq_refl)
    as [Hstop Hnext].
  split; [exact Hstop|]. exact (f_equal (λ x, x.1.1) Hnext).
Defined.

(** ** More on [lookupName] *)

Lemma build_names_raises (records : list (list string)) (i : Z)
    (d : gmap string Z) :
  is_raise (build_names i records d) = true
  ↔ ∃ r, r ∈ records ∧ length r ≠ 2%nat.
Proof.
  revert i d. induction records as [|r records IH]; intros i d; simpl.
  - split; [done|]. intros (r & Hr & _). by apply elem_of_nil in Hr.
  - destruct r as [|m [|nm [|x r]]]; simpl.
    + split; [|done]. intros _. exists []. split; [by left|done].
    + split; [|done]. intros _. exists [m]. split; [by left|done].
    + rewrite IH. split.
      * intros (r & Hr & Hlen). exists r. split; [by right|done].
      * intros (r & Hr & Hlen). apply elem_of_cons in Hr as [->|Hr]; [done|].
        eauto.
    + split; [|done]. intros _. exists (m :: nm :: x :: r).
      split; [by left|simpl; lia].
Qed.

Lemma scan_names_raises (ix : MolFileIndex.MolFileIndex) :
  is_raise (scan_names ix) = true
  ↔ (∃ r, r ∈ (MolFileIndex.iter ix).1 ∧ length r ≠ 2%nat)
    ∨ (MolFileIndex.iter ix).2 ≠ None.
Proof.
  unfold scan_names. rewrite <- (build_names_raises _ 0 ∅).
  destruct (build_names 0 (MolFileIndex.iter ix).1 ∅); simpl.
  - destruct ((MolFileIndex.iter ix).2); simpl; split; try done.
    + intros _. by right.
    + by intros [?|?].
  - split; [by left|done].
Qed.

(** X6. With no name handle, [lookupName] fails with "Name index not
    available" exactly when the fallback cannot be built from the
    index: when some record of the index is not a pair (moldata, name),
    or when iterating the index itself raises. *)
Theorem fallback_unavailable_iff {V} (w : World V) (nm : string) :
  name (self w) = None →
  (lookupName nm w).1 = Raises (ValueError "Name index not available")
  ↔ (∃ r, r ∈ (MolFileIndex.iter (index (self w))).1 ∧ length r ≠ 2%nat)
    ∨ (MolFileIndex.iter (index (self w))).2 ≠ None.
Proof.
  intros Hn. rewrite <- scan_names_raises.
  run_method. rewrite Hn. simpl.
  destruct (scan_names (index (self w))) as [d|e]; simpl; [|done].
  destruct (d !! nm); simpl; split; done.
Qed.

Lemma fallback_unavailable_iff_witness :
  (lookupName "A" Unnamed.world).1
  = Raises (ValueError "Name index not available").
Proof.
  apply (fallback_unavailable_iff Unnamed.world "A" eq_refl).
  left. exists ["CC"]. split; [by left|done].
Defined.

(** X7. Names that repeat: when the fallback is built, [lookupName]
    returns the ordinal of the last record of the index that carries
    the name, and raises the not-found error exactly for the names that
    no record carries. *)
Theorem fallback_last_record_wins {V} (w : World V) (nm : string) :
  name (self w) = None →
  (∀ r, r ∈ (MolFileIndex.iter (index (self w))).1 → length r = 2%nat) →
  (MolFileIndex.iter (index (self w))).2 = None →
  (∀ o, (lookupName nm w).1 = Returns o
        ↔ 0 ≤ o
          ∧ (∃ m, (MolFileIndex.iter (index (self w))).1 !! Z.to_nat o
                  = Some [m; nm])
          ∧ ∀ k m, (MolFileIndex.iter (index (self w))).1 !! k = Some [m; nm] →
                   Z.of_nat k ≤ o)
  ∧ ((lookupName nm w).1 = Raises (IndexError (name_not_found nm))
     ↔ ∀ k m, (MolFileIndex.iter (index (self w))).1 !! k ≠ Some [m; nm]).
Proof.
  intros Hn Hpairs Hend.
  set (records := (MolFileIndex.iter (index (self w))).1) in *.
  destruct (scan_names (index (self w))) as [d|e] eqn:Hscan.
  2:{ assert (is_raise (scan_names (index (self w))) = true) as Hr
        by by rewrite Hscan.
      apply scan_names_raises in Hr as [(r & Hr & Hlen)|Hne]; [|done].
      by destruct Hlen; apply Hpairs. }
  assert (Hb : build_names 0 records ∅ = Returns d).
  { unfold scan_names in Hscan. fold records in Hscan. rewrite Hend in Hscan.
    by destruct (build_names 0 records ∅). }
  assert (Hres : (lookupName nm w).1
                 = match d !! nm with
                   | Some row => Returns row
                   | None => Raises (IndexError (name_not_found nm))
                   end).
  { run_method. rewrite Hn. simpl. rewrite Hscan. simpl.
    by destruct (d !! nm). }
  assert (Hsound : ∀ o, d !! nm = Some o →
                        0 ≤ o ∧ ∃ m, records !! Z.to_nat o = Some [m; nm]).
  { intros o Ho.
    destruct (build_names_sound _ _ _ _ _ _ Hb Ho) as [Hd|[Hle [m Hm]]];
      [by rewrite lookup_empty in Hd|].
    rewrite Z.sub_0_r in Hm. eauto. }
  assert (Hcomplete : ∀ k m, records !! k = Some [m; nm] →
                             ∃ o, d !! nm = Some o ∧ Z.of_nat k ≤ o).
  { intros k m Hk.
    destruct (build_names_complete _ _ _ _ _ _ Hb Hk)
      as (m' & nm' & o & Heq & Ho & Hle).
    simplify_eq. exists o. split; [done|lia]. }
  rewrite Hres. split.
  - intros o. split.
    + intros Ho. destruct (d !! nm) as [o'|] eqn:Hd; simplify_eq.
      destruct (Hsound o eq_refl) as [Hle Hm]. split_and!; [done..|].
      intros k m Hk. destruct (Hcomplete k m Hk) as (o' & Ho' & Hle').
      by simplify_eq.
    + intros (Hle & [m Hm] & Hmax).
      destruct (Hcomplete _ _ Hm) as (o' & Ho' & Hle'). rewrite Ho'.
      destruct (Hsound o' Ho') as [Hpos [m' Hm']].
      pose proof (Hmax _ _ Hm'). f_equal. lia.
  - split.
    + intros Hnone k m Hk. destruct (Hcomplete k m Hk) as (o & Ho & _).
      by rewrite Ho in Hnone.
    + intros Hno. destruct (d !! nm) as [o|] eqn:Hd; [|done].
      destruct (Hsound o eq_refl) as [_ [m Hm]]. by destruct (Hno _ _ Hm).
Qed.

Lemma fallback_last_record_wins_witness :
  (lookupName "A" Repeated.world).1 = Returns 2.
Proof.
  apply (fallback_last_record_wins Repeated.world "A" eq_refl).
  - intros r Hr. simpl in Hr.
    repeat (apply elem_of_cons in Hr as [->|Hr]; [done|]).
    by apply elem_of_nil in Hr.
  - reflexivity.
  - split_and!; [lia|by exists "CCC"|].
    intros [|[|[|k]]] m Hk; simplify_eq/=; lia.
Defined.

(** ** [int] reads back what [str] prints *)

Lemma lstrip_no_space (s : string) : no_space s → lstrip s = s.
Proof. destruct s as [|c s]; [done|]. simpl. by intros [-> _]. Qed.

Lemma rev_app_no_space (s acc : string) :
  no_space s → no_space acc → no_space (String.rev_app s acc).
Proof.
  revert acc. induction s as [|c s IH]; intros acc Hs Hacc; [done|].
  simpl in *. destruct Hs as [Hc Hs]. by apply IH.
Qed.

Lemma rev_app_rev_app (s acc acc' : string) :
  String.rev_app (String.rev_app s acc) acc'
  = String.rev_app acc (s +:+ acc').
Proof.
  revert acc acc'. induction s as [|c s IH]; intros acc acc'; [done|].
  simpl. by rewrite IH.
Qed.

Lemma strip_no_space (s : string) : no_space s → strip s = s.
Proof.
  intros Hs. unfold strip, String.rev.
  rewrite (lstrip_no_space s) by done.
  rewrite lstrip_no_space by by apply rev_app_no_space.
  rewrite rev_app_rev_app. simpl. apply string_app_nil_r.
Qed.

Lemma uint_no_space (u : Decimal.uint) : no_space (NilEmpty.string_of_uint u).
Proof. induction u; simpl; auto. Qed.

Lemma digits_value_uint (u : Decimal.uint) :
  u ≠ Decimal.Nil →
  digits_value (NilEmpty.string_of_uint u) = Some (Z.of_uint u).
Proof.
  intros Hu. unfold digits_value, all_digits.
  pose proof (take_digits_uint u EmptyString I) as Ht.
  rewrite string_app_nil_r in Ht. rewrite Ht. simpl.
  by rewrite uint_of_digits_uint.
Qed.

Lemma py_int_uint (u : Decimal.uint) :
  u ≠ Decimal.Nil →
  py_int (NilEmpty.string_of_uint u) = Returns (Z.of_uint u).
Proof.
  intros Hu. unfold py_int. rewrite strip_no_space by apply uint_no_space.
  pose proof (digits_value_uint u Hu) as Hd.
  pose proof (digit_ahead_uint u EmptyString Hu) as Ha.
  rewrite string_app_nil_r in Ha.
  destruct (NilEmpty.string_of_uint u) as [|c s] eqn:Hs; [done|].
  simpl in Ha.
  destruct c as [[] [] [] [] [] [] [] []]; try done; by rewrite Hd.
Qed.

(** [int(str(z))] is [z]. *)
Lemma py_int_repr_int (z : Z) : py_int (repr_int z) = Returns z.
Proof.
  unfold repr_int. destruct z as [|p|p]; cbn [Z.to_int NilEmpty.string_of_int].
  - reflexivity.
  - rewrite py_int_uint by apply DecimalPos.Unsigned.to_uint_nonnil.
    unfold Z.of_uint. by rewrite DecimalPos.Unsigned.of_to.
  - unfold py_int.
    rewrite (strip_no_space (String "-" _))
      by (split; [done|apply uint_no_space]).
    rewrite digits_value_uint by apply DecimalPos.Unsigned.to_uint_nonnil.
    simpl. unfold Z.of_uint. by rewrite DecimalPos.Unsigned.of_to.
Qed.

(** X8. A name store written with the decimal text of the ordinals reads
    back: for a name stored with [str(z)], [lookupName] returns [z],
    logs nothing and leaves the facade as it was. *)
Theorem lookupName_reads_back_ordinal {V} (w : World V) (kc : KCDB)
    (nm : string) (z : Z) :
  name (self w) = Some (NameDB kc) →
  kc_data kc !! nm = Some (repr_int z) →
  lookupName nm w = (Returns z, w).
Proof.
  intros Hn Hk. run_method. rewrite Hn. simpl. rewrite Hn.
  unfold name_row. by rewrite Hk, py_int_repr_int.
Qed.

Lemma lookupName_reads_back_ordinal_witness :
  lookupName "ZWIMER-03066" NamedStore.world = (Returns 1, NamedStore.world).
Proof.
  apply (lookupName_reads_back_ordinal NamedStore.world NamedStore.names
           "ZWIMER-03066" 1 eq_refl eq_refl).
Defined.

(** ** More on [lookupInchiKey] and [close] *)



(** X10. [close] calls the [close()] methods in a fixed order and has no
    handler around them.  When the one of the columnar store raises,
    [close] raises that error and nothing has been closed; when the one
    of the index raises, [close] raises that error, the columnar store
    is closed and the key stores are left open; when both return, on a
    facade whose [self.inchikey] was assigned and whose [self.name] is
    not the fallback dictionary, [close] returns having closed the
    columnar store, the index, the content-key store if one is open and
    the name store if one is open, in this order, and it assigns no
    attribute. *)
Theorem close_stops_at_first_failure {V} (w : World V) :
  (∀ e, raw.close (db (self w)) (times_closed ColumnarStore (trace w))
        = Raises e →
     close w = (Raises e, w))
  ∧ (∀ e, raw.close (db (self w)) (times_closed ColumnarStore (trace w))
          = Returns () →
       MolFileIndex.close (index (self w))
         (times_closed OrdinalIndex (trace w)) = Raises e →
       (close w).1 = Raises e
       ∧ closed_handles (close w).2 = closed_handles w ++ [ColumnarStore])
  ∧ (∀ ik, raw.close (db (self w)) (times_closed ColumnarStore (trace w))
           = Returns () →
       MolFileIndex.close (index (self w))
         (times_closed OrdinalIndex (trace w)) = Returns () →
       inchikey (self w) = Assigned ik →
       (∀ d, name (self w) ≠ Some (NameDict d)) →
       (close w).1 = Returns ()
       ∧ self (close w).2 = self w
       ∧ closed_handles (close w).2
         = closed_handles w ++ handles_to_close (self w)).
Proof.
  split_and!.
  - intros e Hdb. run_method. by rewrite Hdb.
  - intros e Hdb Hix. run_method. rewrite Hdb. simpl.
    rewrite times_closed_other by done. rewrite Hix. simpl.
    split; [done|]. unfold closed_handles. simpl. by rewrite bind_app.
  - intros ik Hdb Hix Hik Hname.
    destruct (close_releases w ik Hik Hname Hdb Hix) as (Hret & Hself & Hcl).
    split_and!; [done..|]. rewrite Hcl. unfold handles_to_close.
    rewrite Hik. by destruct ik.
Qed.

Lemma close_stops_at_first_failure_witness :
  (close Stuck.world).1 = Raises Stuck.close_failed
  ∧ closed_handles (close Stuck.world).2 = [ColumnarStore]
  ∧ closed_handles (close Scenario.world).2
    = [ColumnarStore; OrdinalIndex; InchiKeyStore].
Proof.
  destruct (close_stops_at_first_failure Stuck.world) as (_ & Hfail & _).
  destruct (close_stops_at_first_failure Scenario.world) as (_ & _ & Hok).
  destruct (Hfail Stuck.close_failed eq_refl eq_refl) as [Hraise Hclosed].
  destruct (Hok _ eq_refl eq_refl eq_refl ltac:(done)) as (_ & _ & Hall).
  split_and!; [exact Hraise | exact Hclosed | exact Hall].
Defined.

(** ** More on [getDescriptors] *)

Lemma omap_subscript_returns {A} (row : list A) (l : list nat) :
  (∀ j, j ∈ l → (j < length row)%nat) →
  ∃ vals, omap (subscript row) l = Returns vals
          ∧ length vals = length l
          ∧ ∀ k j, l !! k = Some j → vals !! k = row !! j.
Proof.
  induction l as [|j l IH]; intros Hl.
  - exists []. by split_and!.
  - destruct IH as (vals & Hvals & Hlen & Hpos).
    { intros j' Hj'. apply Hl. by right. }
    destruct (lookup_lt_is_Some_2 row j) as [x Hx]; [apply Hl; by left|].
    exists (x :: vals). simpl. unfold subscript at 1. rewrite Hx. simpl.
    rewrite Hvals. split_and!; [done|simpl; lia|].
    intros [|k] j' Hk; simplify_eq/=; [done|by apply Hpos].
Qed.

Lemma omap_subscript_raises {A} (row : list A) (l : list nat) (j : nat) :
  j ∈ l → (length row ≤ j)%nat →
  omap (subscript row) l = Raises (IndexError "list index out of range").
Proof.
  induction l as [|j' l IH]; intros Hj Hlen; [by apply elem_of_nil in Hj|].
  simpl. unfold subscript at 1.
  destruct (row !! j') as [x|] eqn:Hx; [|done]. simpl.
  apply elem_of_cons in Hj as [->|Hj].
  - apply lookup_lt_Some in Hx. lia.
  - by rewrite IH.
Qed.

(** X11. [getDescriptors] changes nothing and answers from the row of
    the columnar store alone.  An error of the store (an ordinal out of
    range) is passed on as it is, with or without flags.  For a row the
    store returns, the call with flags returns the row itself; the call
    without flags returns the values at the cached data positions, in
    their order, when the row reaches all of them, and raises
    [IndexError] when the row is too short for one of them. *)
Theorem getDescriptors_reads_the_row {V} (w : World V) (i : Z) :
  (∀ e, raw.get (db (self w)) i = Raises e →
     ∀ keep, getDescriptors i keep w = (Raises e, w))
  ∧ (∀ row, raw.get (db (self w)) i = Returns row →
       getDescriptors i true w = (Returns row, w)
       ∧ ((∀ j, j ∈ dataindices (self w) → (j < length row)%nat) →
            ∃ vals, getDescriptors i false w = (Returns vals, w)
                    ∧ length vals = length (dataindices (self w))
                    ∧ ∀ k j, dataindices (self w) !! k = Some j →
                             vals !! k = row !! j)
       ∧ (∀ j, j ∈ dataindices (self w) → (length row ≤ j)%nat →
            getDescriptors i false w
            = (Raises (IndexError "list index out of range"), w))).
Proof.
  split.
  - intros e He keep. run_method. by rewrite He.
  - intros row Hrow. split_and!.
    + run_method. by rewrite Hrow.
    + intros Hall.
      destruct (omap_subscript_returns row _ Hall) as (vals & Hv & Hlen & Hpos).
      exists vals. split_and!; [|done..]. run_method. by rewrite Hrow; simpl; rewrite Hv.
    + intros j Hj Hlen. run_method. rewrite Hrow. simpl.
      by rewrite (omap_subscript_raises row _ j).
Qed.

Lemma getDescriptors_reads_the_row_witness :
  getDescriptors 2 false Scenario.world
  = (Raises (IndexError "list index out of range"), Scenario.world)
  ∧ getDescriptors 1 true Scenario.world = (Returns [456; 22; 0], Scenario.world).
Proof.
  destruct (getDescriptors_reads_the_row Scenario.world 2) as [Herr _].
  destruct (getDescriptors_reads_the_row Scenario.world 1) as [_ Hrow].
  split.
  - exact (Herr _ eq_refl false).
  - exact (proj1 (Hrow _ eq_refl)).
Defined.




(** ** More on [getDescriptorCalculator] *)

Lemma split_comma_cons (s : string) : ∃ w ws, split_comma s = w :: ws.
Proof.
  induction s as [|c s (w & ws & IH)]; simpl; [eauto|].
  case_bool_decide; [eauto|]. rewrite IH. eauto.
Qed.

Lemma split_comma_word (x : string) :
  has_char "," x = false → split_comma x = [x].
Proof.
  induction x as [|c x IH]; intros Hx; [done|]. simpl in *.
  apply orb_false_iff in Hx as [Hc Hx]. rewrite Hc. by rewrite IH.
Qed.

Lemma split_comma_word_comma (x rest : string) :
  has_char "," x = false →
  split_comma (x +:+ String "," rest) = x :: split_comma rest.
Proof.
  induction x as [|c x IH]; intros Hx; [done|]. simpl in Hx.
  apply orb_false_iff in Hx as [Hc Hx].
  rewrite string_app_cons. simpl. rewrite Hc. by rewrite IH.
Qed.

Lemma split_comma_join (l : list string) :
  l ≠ [] → Forall (λ x, has_char "," x = false) l →
  split_comma (join_comma l) = l.
Proof.
  induction l as [|x l IH]; intros Hne Hall; [done|].
  apply Forall_cons in Hall as [Hx Hall].
  destruct l as [|y l].
  - by apply split_comma_word.
  - cbn [join_comma]. rewrite split_comma_word_comma by done.
    f_equal. by apply IH.
Qed.

Lemma join_comma_split (s : string) : join_comma (split_comma s) = s.
Proof.
  induction s as [|c s IH]; [done|]. cbn [split_comma].
  destruct (split_comma_cons s) as (w & ws & Hs). rewrite Hs in *.
  case_bool_decide as Hc.
  - subst c. change (join_comma (EmptyString :: w :: ws))
      with (String "," (join_comma (w :: ws))). by rewrite IH.
  - destruct ws as [|w' ws].
    + cbn [join_comma] in *. by rewrite IH.
    + change (join_comma (String c w :: w' :: ws))
        with (String c (join_comma (w :: w' :: ws))). by rewrite IH.
Qed.

(** X13. The names of the descriptor set reach the engine one by one:
    when the options hold under ['descriptors'] the comma-joined text of
    a non-empty list of names without commas, [getDescriptorCalculator]
    calls [MakeGenerator] on that list, returns its result when it
    returns one, and then logs nothing and changes nothing; and for any
    stored text, joining the names handed to the engine with commas
    gives the text back. *)
Theorem getDescriptorCalculator_passes_the_names {V} (rt : Runtime)
    (w : World V) (opts : gmap string pyval)
    (make : list string → outcome pyval) :
  options (self w) = Some opts →
  MakeGenerator rt = Some make →
  (∀ names calc,
     names ≠ [] → Forall (λ x, has_char "," x = false) names →
     opts !! "descriptors" = Some (PyStr (join_comma names)) →
     make names = Returns calc →
     getDescriptorCalculator rt w = (Returns calc, w))
  ∧ (∀ text,
       opts !! "descriptors" = Some (PyStr text) →
       join_comma (split_comma text) = text
       ∧ (getDescriptorCalculator rt w).1
         = match make (split_comma text) with
           | Returns calc => Returns calc
           | Raises _ => Returns PyNone
           end).
Proof.
  intros Hopts Hmake. split.
  - intros names calc Hne Hall Hd Hcalc. run_method.
    rewrite Hopts. simpl. rewrite Hd. simpl. rewrite Hmake.
    rewrite split_comma_join by done. by rewrite Hcalc.
  - intros text Hd. split; [apply join_comma_split|]. run_method.
    rewrite Hopts. simpl. rewrite Hd. simpl. rewrite Hmake.
    by destruct (make (split_comma text)).
Qed.

Lemma getDescriptorCalculator_passes_the_names_witness :
  getDescriptorCalculator WithOptions.runtime WithOptions.world
  = (Returns (PyObject "generator of Morgan3Counts,RDKit2D"), WithOptions.world).
Proof.
  destruct (getDescriptorCalculator_passes_the_names WithOptions.runtime
              WithOptions.world WithOptions.opts
              (λ names, Returns (PyObject ("generator of " +:+ join_comma names)))
              eq_refl eq_refl) as [Hcall _].
  apply (Hcall ["Morgan3Counts"; "RDKit2D"]);
    [done | by repeat constructor | reflexivity | reflexivity].
Defined.

(** ** Scans of the index *)

(** X14. The primary ordinal index is scanned sequentially by
    [lookupName] on a facade whose [self.name] is [None], exactly once
    per such call, whether the scan succeeds or not; and by no other
    call that executes no stored text as code: any such call, and
    [lookupName] on a facade with a name mapping, starts no scan. *)
Theorem only_lookupName_scans {V} (rt : Runtime) (c : call) (w : World V) :
  code_free (self w) c →
  scans (run_call rt c w) = (scans w + scans_started (self w) c)%nat.
Proof.
  intros Hfree. unfold scans_started.
  destruct (name (self w)) as [n|] eqn:Hname.
  - destruct (run_call_no_scan rt c w) as [-> _]; [by rewrite Hname|done|].
    destruct c; lia.
  - destruct c;
      try (run_method; rewrite ?Hname; simpl; repeat case_match; simplify_eq/=;
           unfold scans; simpl; rewrite ?filter_app, ?length_app; simpl; lia).
    destruct (lookupInchiKey_literal_call rt (Call_lookupInchiKey key) w Hfree)
      as [_ Htrace]; [by eexists|].
    unfold scans. rewrite Htrace. lia.
Qed.

Lemma only_lookupName_scans_witness :
  scans (run_call Scenario.runtime (Call_lookupName "B") Scenario.world) = 1%nat
  ∧ scans (run_call Scenario.runtime (Call_lookupName "A")
             (run_call Scenario.runtime (Call_lookupName "B") Scenario.world))
    = 1%nat.
Proof.
  split.
  - exact (only_lookupName_scans Scenario.runtime (Call_lookupName "B")
             Scenario.world I).
  - exact (only_lookupName_scans Scenario.runtime (Call_lookupName "A")
             (run_call Scenario.runtime (Call_lookupName "B") Scenario.world) I).
Defined.
